(** * Futures position sizer (src/app.py): model and verified properties

    The calculator of [src/app.py] is a Streamlit script around one pure
    function, [calculate_position_size], followed by a few lines of derived
    arithmetic (actual risk, risk percentage, advisory message, profit table).

    Python arithmetic is duck-typed, so the calculator is written once over
    an interface [Number] of the operations it uses ([*], [/], [math.floor],
    comparisons, conversion of an [int] operand) and run on two carriers:

    - [Float64]: IEEE-754 binary64, the [float] that Streamlit's
      [number_input] and the [ASSETS] table hand to the script.  The
      operations are those of the Standard Library's [SpecFloat]
      (round to nearest, ties to even), with Python's exceptions written out:
      [ZeroDivisionError] for a zero divisor, [OverflowError]/[ValueError]
      for [math.floor] of an infinity/NaN, [OverflowError] for an [int]
      operand beyond the range of [float].
    - [Exact]: the rationals [Q], where no operation rounds.  No run of the
      script computes on them; they are the arithmetic the formulas of the
      docstring denote, kept as a reference beside the binary64 results.

    Properties of the control flow hold on every carrier and are proved
    once; the others are stated and proved on [Float64].  Where they depend
    on how far a product is from its exact value, they rest on an analysis
    of [SpecFloat]'s rounding ([binary_round_aux]) carried out below. *)

From Stdlib Require Import ZArith QArith Qround Qabs Qpower Bool List Lia Lqa.
From Stdlib Require Import SpecFloat.
From Stdlib Require Strings.String.
Import ListNotations.

Local Open Scope Z_scope.

(** ** Python exceptions as an error monad *)

Inductive exn : Set :=
  | ZeroDivisionError
  | OverflowError
  | ValueError.

Inductive result (A : Type) : Type :=
  | Ok (a : A)
  | Raise (e : exn).

Arguments Ok {A} a.
Arguments Raise {A} e.

Definition bind {A B : Type} (c : result A) (k : A -> result B) : result B :=
  match c with
  | Ok a => k a
  | Raise e => Raise e
  end.

Declare Scope py_scope.
Delimit Scope py_scope with py.
Notation "x <- c ;; k" := (bind c (fun x => k))
  (at level 61, c at next level, right associativity) : py_scope.
Notation "' pat <- c ;; k" := (bind c (fun x => match x with pat => k end))
  (at level 61, pat pattern, c at next level, right associativity) : py_scope.
Local Open Scope py_scope.

(** In-order traversal of a list by a computation that may raise: the first
    exception aborts the traversal. *)
Fixpoint mapM {A B : Type} (f : A -> result B) (l : list A) : result (list B) :=
  match l with
  | [] => Ok []
  | a :: l' => b <- f a ;; bs <- mapM f l' ;; Ok (b :: bs)
  end.

(** ** The numbers the script computes with *)

Class Number (F : Type) : Type := {
  (** the value an [int] operand is converted to in mixed arithmetic *)
  of_Z : Z -> F;
  (** whether that conversion is defined ([OverflowError] otherwise) *)
  fits : Z -> bool;
  mul : F -> F -> F;
  div : F -> F -> F;
  (** the divisor test of [/] *)
  is_zero : F -> bool;
  (** [math.floor] *)
  floor : F -> result Z;
  (** [x <= y] and [x < y] *)
  leb : F -> F -> bool;
  ltb : F -> F -> bool
}.

(** The three advisory messages of lines 86-92: [st.error], [st.warning],
    [st.success]. *)
Inductive Classification : Set :=
  | OverThreshold
  | ZeroContracts
  | Acceptable.

Section Calculator.

Context {F : Type} {num : Number F}.

(** [int] operand of a mixed [int * float] product. *)
Definition of_int (n : Z) : result F :=
  if fits n then Ok (of_Z n) else Raise OverflowError.

(** [x / y] *)
Definition truediv (x y : F) : result F :=
  if is_zero y then Raise ZeroDivisionError else Ok (div x y).

(** app.py, lines 20-32. *)
Definition calculate_position_size
    (total_risk_dollars stop_loss_points point_value : F) : result (Z * F) :=
  if leb stop_loss_points (of_Z 0) || leb point_value (of_Z 0) then
    Ok (0, of_Z 0)
  else
    let risk_per_contract := mul stop_loss_points point_value in
    q <- truediv total_risk_dollars risk_per_contract ;;
    num_contracts <- floor q ;;
    Ok (num_contracts, risk_per_contract).

(** app.py, line 65: [actual_risk = contracts * risk_per_contract]. *)
Definition actual_risk (contracts : Z) (risk_per_contract : F) : result F :=
  c <- of_int contracts ;;
  Ok (mul c risk_per_contract).

(** app.py, line 79: [risk_pct = (actual_risk / account_balance) * 100]. *)
Definition risk_pct (actual account_balance : F) : result F :=
  q <- truediv actual account_balance ;;
  Ok (mul q (of_Z 100)).

(** app.py, line 84. *)
Definition RISK_WARNING_THRESHOLD : F := of_Z 2.

(** app.py, lines 86-92. *)
Definition classify (contracts : Z) (pct : F) : Classification :=
  if ltb RISK_WARNING_THRESHOLD pct then OverThreshold
  else if contracts =? 0 then ZeroContracts
  else Acceptable.

(** One row of the profit table, before its fields are formatted. *)
Record ProfitScenario : Type := {
  r_multiple : Z;
  target_points : F;
  potential_profit : F
}.

(** The row the loop body builds when both [int] operands convert. *)
Definition scenario_row (contracts : Z) (stop_loss_points point_value : F)
    (r : Z) : ProfitScenario :=
  {| r_multiple := r;
     target_points := mul stop_loss_points (of_Z r);
     potential_profit :=
       mul (mul (of_Z contracts) (mul stop_loss_points (of_Z r))) point_value |}.

(** app.py, lines 100-106: the body of the loop. *)
Definition scenario (contracts : Z) (stop_loss_points point_value : F)
    (r : Z) : result ProfitScenario :=
  fr <- of_int r ;;
  let target := mul stop_loss_points fr in
  c <- of_int contracts ;;
  let profit := mul (mul c target) point_value in
  Ok {| r_multiple := r; target_points := target; potential_profit := profit |}.

(** app.py, lines 98-106: [scenarios = []], then one [append] per multiple. *)
Definition project (contracts : Z) (stop_loss_points point_value : F)
    (multiples : list Z) : result (list ProfitScenario) :=
  fold_left
    (fun acc r =>
       scenarios <- acc ;;
       row <- scenario contracts stop_loss_points point_value r ;;
       Ok (scenarios ++ [row]))
    multiples (Ok []).

(** The values the widgets and the [ASSETS] lookup give the script. *)
Record Inputs : Type := {
  account_balance : F;
  point_value : F;
  risk_dollars : F;
  stop_loss_points : F
}.

(** What one run of the script displays. *)
Record Display : Type := {
  contracts : Z;
  risk_per_contract : F;
  shown_actual_risk : F;
  shown_risk_pct : F;
  advisory : Classification;
  (** [None]: the table of lines 95-108 is not rendered *)
  scenarios : option (list ProfitScenario)
}.

(** app.py, lines 64-108, one rerun of the script. *)
Definition app (i : Inputs) : result Display :=
  '(n, rpc) <- calculate_position_size
                 (risk_dollars i) (stop_loss_points i) (point_value i) ;;
  actual <- actual_risk n rpc ;;
  pct <- risk_pct actual (account_balance i) ;;
  let adv := classify n pct in
  table <- (if 0 <? n
            then rows <- project n (stop_loss_points i) (point_value i) [1; 2; 3] ;;
                 Ok (Some rows)
            else Ok None) ;;
  Ok {| contracts := n;
        risk_per_contract := rpc;
        shown_actual_risk := actual;
        shown_risk_pct := pct;
        advisory := adv;
        scenarios := table |}.

(** The same inputs with another value in the balance widget. *)
Definition with_balance (i : Inputs) (b : F) : Inputs :=
  {| account_balance := b;
     point_value := point_value i;
     risk_dollars := risk_dollars i;
     stop_loss_points := stop_loss_points i |}.

End Calculator.

Arguments ProfitScenario F : clear implicits.
Arguments Inputs F : clear implicits.
Arguments Display F : clear implicits.

(** ** Carrier 1: binary64 *)

Module Float64.

Definition prec : Z := 53.
Definition emax : Z := 1024.

Definition float : Set := spec_float.

(** The exact rational value of a finite float; 0 for the others. *)
Definition SF2Q (x : float) : Q :=
  match x with
  | S754_finite s m e =>
      let z := if s then Zneg m else Zpos m in
      match e with
      | Z0 => z # 1
      | Zpos k => (z * 2 ^ e) # 1
      | Zneg k => z # (2 ^ k)
      end
  | _ => 0%Q
  end.

(** [float(n)] rounds to nearest, ties to even; it overflows to an
    infinity exactly where CPython raises. *)
Definition float_of_Z (n : Z) : float := binary_normalize prec emax n 0 false.

Definition float_fits (n : Z) : bool :=
  match float_of_Z n with
  | S754_infinity _ => false
  | _ => true
  end.

Definition float_is_zero (x : float) : bool :=
  match x with
  | S754_zero _ => true
  | _ => false
  end.

(** [math.floor]: [ValueError] on NaN, [OverflowError] on an infinity. *)
Definition float_floor (x : float) : result Z :=
  match x with
  | S754_nan => Raise ValueError
  | S754_infinity _ => Raise OverflowError
  | _ => Ok (Qfloor (SF2Q x))
  end.

(** The sign of a float, where it matters: zeros and NaN carry none. *)
Definition signed (b : bool) (x : float) : Prop :=
  match x with
  | S754_zero _ | S754_nan => True
  | S754_infinity s | S754_finite s _ _ => s = b
  end.

#[export] Instance float_Number : Number float := {
  of_Z := float_of_Z;
  fits := float_fits;
  mul := SFmul prec emax;
  div := SFdiv prec emax;
  is_zero := float_is_zero;
  floor := float_floor;
  leb := SFleb;
  ltb := SFltb
}.

(** The float a decimal literal [n/d] denotes: the correctly rounded
    quotient of two exactly represented integers. *)
Definition decimal (n d : Z) : float :=
  SFdiv prec emax (float_of_Z n) (float_of_Z d).

(** [ASSETS], lines 14-18 (point values only). *)
Definition MES : float := float_of_Z 5.
Definition MNQ : float := float_of_Z 2.
Definition MGC : float := float_of_Z 10.

(** [sys.float_info.epsilon], 2^-52, and [sys.float_info.min], 2^-1022, the
    smallest positive normal float; both as exact values. *)
Definition epsilon : Q := 1 # 4503599627370496.
Definition min_normal : Q := (2 ^ (-1022))%Q.

(** A positive finite float in canonical form, as every positive Python
    float is. *)
Definition canonical_pos (x : float) : Prop :=
  exists m e, x = S754_finite false m e /\
              canonical_mantissa prec emax m e = true.

(** A positive finite float whose value is a whole number. *)
Definition whole (x : float) : Prop :=
  exists m e, x = S754_finite false m e /\
              (0 <= e \/ (2 ^ (- e) | Z.pos m)).

(** What the shift register of the rounding holds after [k] shifts of the
    mantissa [M]: the quotient by [2^k], whether the remainder reaches one
    half, and whether it is exactly zero or one half. *)
Definition shr_inv (M k : Z) (r : shr_record) : Prop :=
  0 <= M /\ 0 <= k /\
  shr_m r = M / 2 ^ k /\
  (shr_r r = true -> 2 ^ k <= 2 * (M mod 2 ^ k)) /\
  (shr_r r = false -> 2 * (M mod 2 ^ k) < 2 ^ k) /\
  (shr_s r = false -> 2 * (M mod 2 ^ k) = 2 ^ k * Z.b2z (shr_r r)).

End Float64.

(** ** Carrier 2: exact rationals

    The same operations without rounding, overflow or NaN.  The script never
    runs on this carrier; it is a reference for what the formulas denote. *)

Module Exact.

#[export] Instance Q_Number : Number Q := {
  of_Z := inject_Z;
  fits := fun _ => true;
  mul := Qmult;
  div := Qdiv;
  is_zero := fun x => Qeq_bool x 0;
  floor := fun x => Ok (Qfloor x);
  leb := Qle_bool;
  ltb := fun x y => negb (Qle_bool y x)
}.

End Exact.

(** ** The widgets and the instrument table *)

Module Widgets.

Import Float64.
Import String.StringSyntax.
Local Open Scope string_scope.

(** [ASSETS], lines 14-18: ticker to point value, in insertion order. *)
Definition ASSETS : list (String.string * float) :=
  [ ("MES (Micro S&P 500)", MES);
    ("MNQ (Micro Nasdaq 100)", MNQ);
    ("MGC (Micro Gold)", MGC) ].

(** [d[key]]; [None] stands for [KeyError]. *)
Fixpoint getitem (d : list (String.string * float)) (key : String.string)
    : option float :=
  match d with
  | [] => None
  | (k, v) :: d' => if String.eqb k key then Some v else getitem d' key
  end.

(** Line 53: [options=list(ASSETS.keys())]. *)
Definition options : list String.string := map fst ASSETS.

(** The inputs one rerun of the script can get from its widgets: the balance
    of lines 41-47 ([min_value=1000.0]), the point value of lines 53-54
    ([ASSETS[selected_asset_key]] for a selected option), the dollar risk of
    line 58 ([min_value=10.0]) and the stop of line 59 ([min_value=0.25]). *)
Definition from_widgets (i : Inputs float) : Prop :=
  leb (float_of_Z 1000) (account_balance i) = true /\
  (exists key, In key options /\ getitem ASSETS key = Some (point_value i)) /\
  leb (float_of_Z 10) (risk_dollars i) = true /\
  leb (decimal 25 100) (stop_loss_points i) = true.

(** Neither an infinity nor NaN. *)
Definition is_finite (x : float) : bool :=
  match x with
  | S754_zero _ | S754_finite _ _ _ => true
  | _ => false
  end.

End Widgets.

(** * Properties *)

(** ** Facts that hold on every carrier *)

Section Generic.

Context {F : Type} {num : Number F}.

Lemma scenario_fits c s p r :
  fits c = true -> fits r = true ->
  scenario c s p r = Ok (scenario_row c s p r).
Proof.
  intros Hc Hr. unfold scenario, of_int. rewrite Hr, Hc. reflexivity.
Qed.

Lemma scenario_Ok c s p r row :
  scenario c s p r = Ok row ->
  row = scenario_row c s p r /\ fits c = true /\ fits r = true.
Proof.
  unfold scenario, of_int.
  destruct (fits r); [|discriminate]. destruct (fits c); [|discriminate].
  simpl. intros [= <-]. auto.
Qed.

(** An exception raised in one iteration leaves the loop. *)
Lemma loop_Raise c s p ms e :
  fold_left
    (fun acc r =>
       scenarios <- acc ;; row <- scenario c s p r ;; Ok (scenarios ++ [row]))
    ms (Raise e) = Raise e.
Proof. induction ms as [|r ms IH]; simpl; auto. Qed.

Lemma loop_from c s p ms : forall done,
  fold_left
    (fun acc r =>
       scenarios <- acc ;; row <- scenario c s p r ;; Ok (scenarios ++ [row]))
    ms (Ok done)
  = (rows <- mapM (scenario c s p) ms ;; Ok (done ++ rows)).
Proof.
  induction ms as [|r ms IH]; intros done; simpl.
  - now rewrite app_nil_r.
  - destruct (scenario c s p r) as [row|e]; simpl.
    + rewrite IH. destruct (mapM (scenario c s p) ms) as [rows|e]; simpl; auto.
      now rewrite <- app_assoc.
    + apply loop_Raise.
Qed.

Lemma project_mapM c s p ms :
  project c s p ms = mapM (scenario c s p) ms.
Proof.
  unfold project. rewrite loop_from.
  destruct (mapM (scenario c s p) ms); reflexivity.
Qed.

Lemma mapM_scenario_fits c s p ms :
  fits c = true -> forallb fits ms = true ->
  mapM (scenario c s p) ms = Ok (map (scenario_row c s p) ms).
Proof.
  intros Hc. induction ms as [|r ms IH]; simpl; intros Hms; auto.
  apply andb_true_iff in Hms as [Hr Hms].
  rewrite (scenario_fits c s p r Hc Hr), (IH Hms). reflexivity.
Qed.

Lemma mapM_scenario_Ok c s p ms : forall rows,
  mapM (scenario c s p) ms = Ok rows -> rows = map (scenario_row c s p) ms.
Proof.
  induction ms as [|r ms IH]; simpl; intros rows.
  - now intros [= <-].
  - destruct (scenario c s p r) as [row|e] eqn:Hrow; [|discriminate].
    destruct (mapM (scenario c s p) ms) as [rows'|e]; [|discriminate].
    simpl. intros [= <-].
    apply scenario_Ok in Hrow as [-> _]. now rewrite (IH rows' eq_refl).
Qed.

(** The sizer on its normal path. *)
Lemma sizer_normal t s p :
  leb s (of_Z 0) = false -> leb p (of_Z 0) = false ->
  calculate_position_size t s p
  = (q <- truediv t (mul s p) ;; n <- floor q ;; Ok (n, mul s p)).
Proof.
  intros Hs Hp. unfold calculate_position_size. rewrite Hs, Hp. reflexivity.
Qed.

(** The sizer on its guard. *)
Lemma sizer_degenerate t s p :
  leb s (of_Z 0) = true \/ leb p (of_Z 0) = true ->
  calculate_position_size t s p = Ok (0, of_Z 0).
Proof.
  intros H. unfold calculate_position_size.
  destruct H as [-> | ->]; [reflexivity | now rewrite orb_true_r].
Qed.

(** What a successful run of the sizer went through. *)
Lemma sizer_Ok t s p n r :
  calculate_position_size t s p = Ok (n, r) ->
  (n = 0 /\ r = of_Z 0 /\ (leb s (of_Z 0) = true \/ leb p (of_Z 0) = true))
  \/ (leb s (of_Z 0) = false /\ leb p (of_Z 0) = false /\ r = mul s p /\
      is_zero r = false /\ floor (div t r) = Ok n).
Proof.
  unfold calculate_position_size.
  destruct (leb s (of_Z 0)) eqn:Hs; simpl.
  { intros [= <- <-]. left. auto. }
  destruct (leb p (of_Z 0)) eqn:Hp; simpl.
  { intros [= <- <-]. left. auto. }
  unfold truediv. destruct (is_zero (mul s p)) eqn:Hz; simpl; [discriminate|].
  destruct (floor (div t (mul s p))) as [k|e] eqn:Hf; simpl; [|discriminate].
  intros [= <- <-]. right. auto.
Qed.

(** What a completed run of the script displays. *)
Lemma app_Ok i d :
  app i = Ok d ->
  calculate_position_size (risk_dollars i) (stop_loss_points i) (point_value i)
  = Ok (contracts d, risk_per_contract d) /\
  fits (contracts d) = true /\
  shown_actual_risk d = mul (of_Z (contracts d)) (risk_per_contract d) /\
  is_zero (account_balance i) = false /\
  shown_risk_pct d
  = mul (div (shown_actual_risk d) (account_balance i)) (of_Z 100) /\
  scenarios d
  = (if 0 <? contracts d
     then Some (map (scenario_row (contracts d) (stop_loss_points i)
                       (point_value i)) [1; 2; 3])
     else None).
Proof.
  unfold app.
  destruct (calculate_position_size _ _ _) as [[n rpc]|e]; simpl; [|discriminate].
  unfold actual_risk, of_int.
  destruct (fits n) eqn:Hn; simpl; [|discriminate].
  unfold risk_pct, truediv.
  destruct (is_zero (account_balance i)) eqn:Hb; simpl; [discriminate|].
  destruct (0 <? n) eqn:Hpos.
  - destruct (project n (stop_loss_points i) (point_value i) [1; 2; 3])
      as [rows|e] eqn:Hrows; simpl; [|discriminate].
    rewrite project_mapM in Hrows. apply mapM_scenario_Ok in Hrows.
    intros [= <-]. simpl. rewrite Hpos, Hrows. repeat split; auto.
  - simpl. intros [= <-]. simpl. rewrite Hpos. repeat split; auto.
Qed.

Lemma app_advisory i d :
  app i = Ok d -> advisory d = classify (contracts d) (shown_risk_pct d).
Proof.
  unfold app.
  destruct (calculate_position_size _ _ _) as [[n rpc]|e]; simpl; [|discriminate].
  destruct (actual_risk n rpc) as [a|e]; simpl; [|discriminate].
  destruct (risk_pct a (account_balance i)) as [pct|e]; simpl; [|discriminate].
  destruct (if 0 <? n then _ else _) as [tbl|e]; simpl; [|discriminate].
  now intros [= <-].
Qed.

(** C4 (degenerate-input fallback).  Whatever the dollar risk, a stop
    distance or a point value that is [<= 0] makes the sizer return exactly
    [(0, 0.0)]: a value, not an exception. *)
Theorem degenerate_fallback (total_risk_dollars stop_loss_points point_value : F) :
  leb stop_loss_points (of_Z 0) = true \/ leb point_value (of_Z 0) = true ->
  calculate_position_size total_risk_dollars stop_loss_points point_value
  = Ok (0, of_Z 0).
Proof. apply sizer_degenerate. Qed.

(** C5 (classification precedence).  The advisory is [OverThreshold] as soon
    as the percentage exceeds the threshold 2.0, whatever the contract count
    (zero included); failing that it is [ZeroContracts] when there is no
    contract; failing both it is [Acceptable].  The three cases exclude one
    another and cover every input. *)
Theorem classification_precedence (contracts : Z) (pct : F) :
  (ltb RISK_WARNING_THRESHOLD pct = true ->
     classify contracts pct = OverThreshold) /\
  (ltb RISK_WARNING_THRESHOLD pct = false -> contracts = 0 ->
     classify contracts pct = ZeroContracts) /\
  (ltb RISK_WARNING_THRESHOLD pct = false -> contracts <> 0 ->
     classify contracts pct = Acceptable).
Proof.
  unfold classify. repeat split.
  - now intros ->.
  - now intros -> ->.
  - intros -> Hc. apply Z.eqb_neq in Hc. now rewrite Hc.
Qed.

(** C7 (scenario order preservation).  The loop over the multiples is their
    in-order traversal by the loop body, for every sequence; and whenever the
    [int] operands convert (always on exact numbers, below 2^1024 in
    magnitude on binary64) it yields one row per multiple, in the order of
    the multiples, with [target_points = stop_loss_points * r] and
    [potential_profit = contracts * target_points * point_value]. *)
Theorem scenario_order (contracts : Z) (stop_loss_points point_value : F)
    (multiples : list Z) :
  project contracts stop_loss_points point_value multiples
  = mapM (scenario contracts stop_loss_points point_value) multiples /\
  (fits contracts = true -> forallb fits multiples = true ->
   project contracts stop_loss_points point_value multiples
   = Ok (map (scenario_row contracts stop_loss_points point_value) multiples)) /\
  (forall rows,
   project contracts stop_loss_points point_value multiples = Ok rows ->
   rows = map (scenario_row contracts stop_loss_points point_value) multiples /\
   map r_multiple rows = multiples).
Proof.
  split; [apply project_mapM|]. split.
  - intros Hc Hms. rewrite project_mapM. now apply mapM_scenario_fits.
  - intros rows. rewrite project_mapM. intros H.
    apply mapM_scenario_Ok in H. subst rows. split; [reflexivity|].
    rewrite map_map. simpl. apply map_id.
Qed.

(** C8 (balance noninterference).  Two runs that agree on the dollar risk,
    the stop distance and the point value show the same contract count (and
    the same risk per contract, actual risk and profit table) whatever their
    account balances: the balance only enters the percentage. *)
Theorem balance_noninterference (i1 i2 : Inputs F) (d1 : Display F) :
  risk_dollars i1 = risk_dollars i2 ->
  stop_loss_points i1 = stop_loss_points i2 ->
  point_value i1 = point_value i2 ->
  is_zero (account_balance i2) = false ->
  app i1 = Ok d1 ->
  exists d2,
    app i2 = Ok d2 /\
    contracts d2 = contracts d1 /\
    risk_per_contract d2 = risk_per_contract d1 /\
    shown_actual_risk d2 = shown_actual_risk d1 /\
    scenarios d2 = scenarios d1.
Proof.
  intros Ht Hs Hp Hb. unfold app. rewrite Ht, Hs, Hp.
  destruct (calculate_position_size _ _ _) as [[n rpc]|e]; simpl; [|discriminate].
  destruct (actual_risk n rpc) as [a|e]; simpl; [|discriminate].
  unfold risk_pct, truediv. rewrite Hb.
  destruct (is_zero (account_balance i1)); simpl; [discriminate|].
  destruct (if 0 <? n then _ else _) as [tbl|e]; simpl; [|discriminate].
  intros [= <-]. eexists. split; [reflexivity|]. simpl. auto.
Qed.

End Generic.

(** ** Facts about binary64 *)

Section Binary64.

Import Float64.

Lemma binary_round_aux_signed b m e l :
  signed b (binary_round_aux prec emax b m e l).
Proof.
  unfold binary_round_aux.
  destruct (shr_fexp prec emax m e l) as [mrs' e'].
  destruct (shr_fexp prec emax _ e' loc_Exact) as [mrs'' e''].
  destruct (shr_m mrs''); simpl; auto;
    destruct (Z.leb _ _); simpl; auto.
Qed.

Lemma SFmul_signed bx by_ x y :
  signed bx x -> signed by_ y -> signed (xorb bx by_) (SFmul prec emax x y).
Proof.
  destruct x as [sx|sx| |sx mx ex], y as [sy|sy| |sy my ey]; simpl;
    intros Hx Hy; subst; auto.
  apply binary_round_aux_signed.
Qed.

Lemma SFdiv_signed bx by_ x y :
  float_is_zero y = false ->
  signed bx x -> signed by_ y -> signed (xorb bx by_) (SFdiv prec emax x y).
Proof.
  destruct x as [sx|sx| |sx mx ex], y as [sy|sy| |sy my ey]; simpl;
    intros Hz Hx Hy; subst; auto; try discriminate.
  destruct (SFdiv_core_binary prec emax (Z.pos mx) ex (Z.pos my) ey) as [[mz ez] lz].
  apply binary_round_aux_signed.
Qed.

Lemma zero_lit : float_of_Z 0 = S754_zero false.
Proof. reflexivity. Qed.

Lemma two_lit : float_of_Z 2 = S754_finite false 4503599627370496 (-51).
Proof. reflexivity. Qed.

Lemma hundred_lit : float_of_Z 100 = S754_finite false 7036874417766400 (-46).
Proof. reflexivity. Qed.

(** [x > 0] *)
Lemma gt0_inv (x : float) :
  ltb (of_Z 0) x = true ->
  x = S754_infinity false \/ exists m e, x = S754_finite false m e.
Proof.
  destruct x as [s|[]| |[] m e]; simpl; try discriminate; eauto.
Qed.

(** [not (x <= 0)]: positive, or NaN. *)
Lemma not_le0_inv (x : float) :
  leb x (of_Z 0) = false ->
  x = S754_nan \/ x = S754_infinity false \/ exists m e, x = S754_finite false m e.
Proof.
  destruct x as [s|[]| |[] m e]; simpl; try discriminate; eauto.
Qed.

Lemma gt0_not_le0 (x : float) :
  ltb (of_Z 0) x = true -> leb x (of_Z 0) = false.
Proof. intros H. apply gt0_inv in H as [->|(m & e & ->)]; reflexivity. Qed.

Lemma not_le0_signed (x : float) : leb x (of_Z 0) = false -> signed false x.
Proof.
  intros H. apply not_le0_inv in H as [->|[->|(m & e & ->)]]; simpl; auto.
Qed.

Lemma ge0_signed (x : float) : leb (of_Z 0) x = true -> signed false x.
Proof. destruct x as [s|[]| |[] m e]; simpl; try discriminate; auto. Qed.

Lemma lt0_signed (x : float) : ltb x (of_Z 0) = true -> signed true x.
Proof. destruct x as [s|[]| |[] m e]; simpl; try discriminate; auto. Qed.

Lemma SF2Q_signed_false x : signed false x -> (0 <= SF2Q x)%Q.
Proof.
  destruct x as [s|s| |s m e]; try (intros _; apply Qle_refl).
  simpl signed. intros ->. unfold SF2Q.
  destruct e as [|k|k]; unfold Qle; cbn [Qnum Qden]; lia.
Qed.

Lemma SF2Q_signed_true x : signed true x -> (SF2Q x <= 0)%Q.
Proof.
  destruct x as [s|s| |s m e]; try (intros _; apply Qle_refl).
  simpl signed. intros ->. unfold SF2Q.
  destruct e as [|k|k]; unfold Qle; cbn [Qnum Qden]; lia.
Qed.

(** [math.floor] returns the integer floor of the float's exact value. *)
Lemma floor_Ok (q : float) (n : Z) :
  floor q = Ok n ->
  n = Qfloor (SF2Q q) /\ (inject_Z n <= SF2Q q)%Q /\ (SF2Q q < inject_Z (n + 1))%Q.
Proof.
  intros H.
  assert (Hn : n = Qfloor (SF2Q q)).
  { destruct q; simpl in H; try discriminate; now injection H as <-. }
  subst n. split; [reflexivity|]. split; [apply Qfloor_le | apply Qlt_floor].
Qed.

Lemma floor_signed_false q n : floor q = Ok n -> signed false q -> 0 <= n.
Proof.
  intros H Hs. apply floor_Ok in H as [-> _].
  apply SF2Q_signed_false in Hs. apply Qfloor_resp_le in Hs. exact Hs.
Qed.

Lemma floor_signed_true q n : floor q = Ok n -> signed true q -> n <= 0.
Proof.
  intros H Hs. apply floor_Ok in H as [-> _].
  apply SF2Q_signed_true in Hs. apply Qfloor_resp_le in Hs. exact Hs.
Qed.

End Binary64.

(** ** Rounding: what [binary_round_aux] cannot return *)

Section RoundingFacts.

Import Float64.

Lemma digits2_size (m : positive) : digits2_pos m = Pos.size m.
Proof. induction m; simpl; congruence. Qed.

Lemma digits2_bounds (m : positive) :
  2 ^ (Z.pos (digits2_pos m) - 1) <= Z.pos m < 2 ^ Z.pos (digits2_pos m).
Proof.
  rewrite digits2_size.
  pose proof (Pos.size_gt m) as Hgt. pose proof (Pos.size_le m) as Hle.
  apply Pos2Z.pos_lt_pos in Hgt. apply Pos2Z.pos_le_pos in Hle.
  rewrite Pos2Z.inj_pow in Hgt, Hle.
  change (Z.pos m~0) with (2 * Z.pos m) in Hle.
  split; [|exact Hgt].
  assert (E : 2 ^ Z.pos (Pos.size m) = 2 * 2 ^ (Z.pos (Pos.size m) - 1)).
  { rewrite <- Z.pow_succ_r by lia. f_equal. lia. }
  lia.
Qed.

(** A number at least [2^k] has more than [k] binary digits. *)
Lemma Zdigits2_lower (x k : Z) : 0 <= k -> 2 ^ k <= x -> k < Zdigits2 x.
Proof.
  intros Hk Hx.
  assert (0 < 2 ^ k) by (apply Z.pow_pos_nonneg; lia).
  destruct x as [|m|m]; try lia. simpl.
  destruct (digits2_bounds m) as [_ Hm].
  apply (Z.pow_lt_mono_r_iff 2); lia.
Qed.

Lemma shr_1_m (r : shr_record) :
  0 <= shr_m r -> shr_m (shr_1 r) = shr_m r / 2.
Proof.
  destruct r as [m rb sb]. cbn [shr_m]. intros Hm.
  rewrite <- Z.div2_div.
  destruct m as [|[q|q|]|q]; try reflexivity; lia.
Qed.

Lemma iter_shr_1_m (p : positive) : forall r : shr_record,
  0 <= shr_m r ->
  shr_m (iter_pos shr_1 p r) = shr_m r / 2 ^ Z.pos p.
Proof.
  induction p as [p IH|p IH|]; intros r Hr; cbn [iter_pos].
  - assert (H1 : 0 <= shr_m (shr_1 r)).
    { rewrite shr_1_m by exact Hr. apply Z.div_pos; lia. }
    assert (H2 : 0 <= shr_m (iter_pos shr_1 p (shr_1 r))).
    { rewrite IH by exact H1. apply Z.div_pos; [exact H1|].
      apply Z.pow_pos_nonneg; lia. }
    rewrite (IH _ H2), (IH _ H1), shr_1_m by exact Hr.
    assert (Hp : 0 < 2 ^ Z.pos p) by (apply Z.pow_pos_nonneg; lia).
    rewrite !Z.div_div by lia. f_equal.
    replace (Z.pos p~1) with (1 + Z.pos p + Z.pos p) by lia.
    rewrite !Z.pow_add_r by lia. change (2 ^ 1) with 2. ring.
  - assert (H2 : 0 <= shr_m (iter_pos shr_1 p r)).
    { rewrite IH by exact Hr. apply Z.div_pos; [exact Hr|].
      apply Z.pow_pos_nonneg; lia. }
    rewrite (IH _ H2), (IH _ Hr).
    assert (Hp : 0 < 2 ^ Z.pos p) by (apply Z.pow_pos_nonneg; lia).
    rewrite Z.div_div by lia. f_equal.
    replace (Z.pos p~0) with (Z.pos p + Z.pos p) by lia.
    now rewrite Z.pow_add_r by lia.
  - rewrite shr_1_m by exact Hr. reflexivity.
Qed.

Lemma shr_record_of_loc_m (m : Z) (l : location) :
  shr_m (shr_record_of_loc m l) = m.
Proof. destruct l as [|[]]; reflexivity. Qed.

Lemma round_nearest_even_ge (m : Z) (l : location) :
  m <= round_nearest_even m l.
Proof.
  destruct l as [|[]]; cbn [round_nearest_even]; try lia.
  destruct (Z.even m); lia.
Qed.

Lemma Zdigits2_mono (a b : Z) : 0 < a -> a <= b -> Zdigits2 a <= Zdigits2 b.
Proof.
  intros Ha Hab. destruct a as [|ma|ma]; try lia.
  destruct (digits2_bounds ma) as [Hlo _].
  assert (Z.pos (digits2_pos ma) - 1 < Zdigits2 b).
  { apply Zdigits2_lower; lia. }
  cbn [Zdigits2]. lia.
Qed.

(** The first shift of the rounding keeps a mantissa non-negative. *)
Lemma shr_fexp_nonneg (m e : Z) (l : location) :
  0 <= m -> 0 <= shr_m (fst (shr_fexp prec emax m e l)).
Proof.
  intros Hm. unfold shr_fexp, shr.
  destruct (fexp prec emax (Zdigits2 m + e) - e) as [|n|n]; cbn [fst];
    rewrite ?iter_shr_1_m; rewrite shr_record_of_loc_m; try lia.
  apply Z.div_pos; [exact Hm | apply Z.pow_pos_nonneg; lia].
Qed.

(** Above the smallest exponent it keeps it positive. *)
Lemma shr_fexp_pos (m e : Z) (l : location) :
  0 < m -> emin prec emax < e + Zdigits2 m ->
  0 < shr_m (fst (shr_fexp prec emax m e l)) /\
  emin prec emax
  < snd (shr_fexp prec emax m e l)
    + Zdigits2 (shr_m (fst (shr_fexp prec emax m e l))).
Proof.
  intros Hm He. unfold shr_fexp, shr.
  destruct (fexp prec emax (Zdigits2 m + e) - e) as [|n|n] eqn:Hn; cbn [fst snd];
    rewrite ?iter_shr_1_m; rewrite shr_record_of_loc_m; try lia.
  destruct m as [|mm|mm]; try lia. cbn [Zdigits2] in *.
  destruct (digits2_bounds mm) as [Hlo _].
  set (d := Z.pos (digits2_pos mm)) in *.
  assert (Hnd : Z.pos n <= d - 1).
  { unfold fexp, emin, prec, emax in *. lia. }
  assert (Hpow : 2 ^ (d - 1) = 2 ^ (d - 1 - Z.pos n) * 2 ^ Z.pos n).
  { rewrite <- Z.pow_add_r by lia. f_equal. lia. }
  assert (Hp : 0 < 2 ^ Z.pos n) by (apply Z.pow_pos_nonneg; lia).
  assert (Hq : 0 < 2 ^ (d - 1 - Z.pos n)) by (apply Z.pow_pos_nonneg; lia).
  assert (Hge : 2 ^ (d - 1 - Z.pos n) <= Z.pos mm / 2 ^ Z.pos n).
  { apply Z.div_le_lower_bound; [exact Hp|]. lia. }
  split; [lia|].
  assert (d - 1 - Z.pos n < Zdigits2 (Z.pos mm / 2 ^ Z.pos n)).
  { apply Zdigits2_lower; lia. }
  lia.
Qed.

Lemma binary_round_aux_not_nan (b : bool) (m e : Z) (l : location) :
  0 <= m -> binary_round_aux prec emax b m e l <> S754_nan.
Proof.
  intros Hm. unfold binary_round_aux.
  pose proof (shr_fexp_nonneg m e l Hm) as H1.
  destruct (shr_fexp prec emax m e l) as [mrs' e']. cbn [fst] in H1.
  pose proof (round_nearest_even_ge (shr_m mrs') (loc_of_shr_record mrs')) as H2.
  pose proof (shr_fexp_nonneg (round_nearest_even (shr_m mrs') (loc_of_shr_record mrs'))
                e' loc_Exact ltac:(lia)) as H3.
  destruct (shr_fexp prec emax _ e' loc_Exact) as [mrs'' e'']. cbn [fst] in H3.
  destruct (shr_m mrs''); try lia; try discriminate.
  destruct (Z.leb _ _); discriminate.
Qed.

Lemma binary_round_aux_nonzero (b : bool) (m e : Z) (l : location) :
  0 < m -> emin prec emax < e + Zdigits2 m ->
  float_is_zero (binary_round_aux prec emax b m e l) = false.
Proof.
  intros Hm He. unfold binary_round_aux.
  pose proof (shr_fexp_pos m e l Hm He) as [H1 H1'].
  destruct (shr_fexp prec emax m e l) as [mrs' e']. cbn [fst snd] in H1, H1'.
  pose proof (round_nearest_even_ge (shr_m mrs') (loc_of_shr_record mrs')) as H2.
  pose proof (Zdigits2_mono _ _ H1 H2) as H2'.
  pose proof (shr_fexp_pos (round_nearest_even (shr_m mrs') (loc_of_shr_record mrs'))
                e' loc_Exact ltac:(lia) ltac:(lia)) as [H3 _].
  destruct (shr_fexp prec emax _ e' loc_Exact) as [mrs'' e'']. cbn [fst] in H3.
  destruct (shr_m mrs''); try lia.
  destruct (Z.leb _ _); reflexivity.
Qed.

(** A product of finite floats is never NaN, and is not zero unless it
    falls below the subnormal range. *)
Lemma SFmul_finite_not_nan sx mx ex sy my ey :
  SFmul prec emax (S754_finite sx mx ex) (S754_finite sy my ey) <> S754_nan.
Proof. cbn [SFmul]. apply binary_round_aux_not_nan. lia. Qed.

Lemma SFmul_finite_nonzero sx mx ex sy my ey :
  emin prec emax < ex + ey + Z.pos (digits2_pos (mx * my)) ->
  float_is_zero (SFmul prec emax (S754_finite sx mx ex) (S754_finite sy my ey))
  = false.
Proof.
  intros H. cbn [SFmul]. apply binary_round_aux_nonzero; [lia | exact H].
Qed.

(** A quotient of finite floats is never NaN. *)
Lemma SFdiv_finite_not_nan sx mx ex sy my ey :
  SFdiv prec emax (S754_finite sx mx ex) (S754_finite sy my ey) <> S754_nan.
Proof.
  cbn [SFdiv]. unfold SFdiv_core_binary.
  set (m' := match _ with Z.pos _ => _ | Z0 => Z.pos mx | Z.neg _ => 0 end).
  assert (Hm' : 0 <= m').
  { subst m'. destruct (_ - _ - _); try lia. apply Z.shiftl_nonneg. lia. }
  pose proof (Z_div_mod m' (Z.pos my) ltac:(lia)) as Hdiv.
  destruct (Z.div_eucl m' (Z.pos my)) as [q r]. destruct Hdiv as [Hq Hr].
  apply binary_round_aux_not_nan. nia.
Qed.

End RoundingFacts.

(** ** Rounding: how far [binary_round_aux] moves a product

    The products of the script are rounded by [binary_round_aux]: the
    mantissa is shifted right until it fits, the digits shifted out decide a
    rounding to nearest, ties to even, and a carry is renormalised. *)

Section RoundingError.

Import Float64.

Lemma shr_inv_0 (M : Z) : 0 <= M -> shr_inv M 0 (Build_shr_record M false false).
Proof.
  intros HM. unfold shr_inv. cbn [shr_m shr_r shr_s Z.b2z].
  rewrite Z.pow_0_r, Z.div_1_r, Z.mod_1_r. repeat split; try lia; discriminate.
Qed.

Lemma shr_inv_step (M k : Z) (r : shr_record) :
  shr_inv M k r -> shr_inv M (k + 1) (shr_1 r).
Proof.
  intros (HM & Hk & Hm & Ht & Hf & Hs).
  assert (Hp : 0 < 2 ^ k) by (apply Z.pow_pos_nonneg; lia).
  assert (Hpow : 2 ^ (k + 1) = 2 ^ k * 2) by (rewrite Z.pow_add_r by lia; reflexivity).
  assert (Hdiv : M / 2 ^ (k + 1) = M / 2 ^ k / 2).
  { rewrite Hpow, Z.div_div by lia. reflexivity. }
  assert (Hmod : M mod 2 ^ (k + 1) = M mod 2 ^ k + 2 ^ k * ((M / 2 ^ k) mod 2)).
  { rewrite Hpow. apply Z.rem_mul_r; lia. }
  pose proof (Z.mod_pos_bound M (2 ^ k) Hp) as Hrem.
  assert (Hq : 0 <= M / 2 ^ k) by (apply Z.div_pos; lia).
  unfold shr_inv. rewrite Hdiv, Hmod, Hpow, <- Hm.
  destruct r as [m rb sb]. cbn [shr_m shr_r shr_s] in *.
  split; [exact HM|]. split; [lia|].
  destruct m as [|[q|q|]|q]; cbn [shr_1 shr_m shr_r shr_s]; try lia.
  - (* 0 *)
    change (0 / 2) with 0. change (0 mod 2) with 0.
    repeat split; try lia; try discriminate.
    intros E. apply orb_false_iff in E as [-> ->].
    specialize (Hs eq_refl). cbn [Z.b2z] in *. lia.
  - (* q~1 *)
    assert (E1 : Z.pos q~1 / 2 = Z.pos q).
    { rewrite <- Z.div2_div. reflexivity. }
    assert (E2 : Z.pos q~1 mod 2 = 1).
    { rewrite Zmod_odd. reflexivity. }
    rewrite E1, E2. repeat split; try lia; try discriminate.
    intros E. apply orb_false_iff in E as [-> ->].
    specialize (Hs eq_refl). cbn [Z.b2z] in *. lia.
  - (* q~0 *)
    assert (E1 : Z.pos q~0 / 2 = Z.pos q).
    { rewrite <- Z.div2_div. reflexivity. }
    assert (E2 : Z.pos q~0 mod 2 = 0).
    { rewrite Zmod_odd. reflexivity. }
    rewrite E1, E2. repeat split; try lia; try discriminate.
    intros E. apply orb_false_iff in E as [-> ->].
    specialize (Hs eq_refl). cbn [Z.b2z] in *. lia.
  - (* 1 *)
    change (1 / 2) with 0. change (1 mod 2) with 1.
    repeat split; try lia; try discriminate.
    intros E. apply orb_false_iff in E as [-> ->].
    specialize (Hs eq_refl). cbn [Z.b2z] in *. lia.
Qed.

Lemma shr_inv_iter (M : Z) (p : positive) : forall (k : Z) (r : shr_record),
  shr_inv M k r -> shr_inv M (k + Z.pos p) (iter_pos shr_1 p r).
Proof.
  induction p as [p IH|p IH|]; intros k r H; cbn [iter_pos].
  - replace (k + Z.pos p~1) with (k + 1 + Z.pos p + Z.pos p) by lia.
    apply IH, IH. now apply shr_inv_step.
  - replace (k + Z.pos p~0) with (k + Z.pos p + Z.pos p) by lia.
    now apply IH, IH.
  - now apply shr_inv_step.
Qed.

Lemma Zdigits2_upper (x k : Z) : 0 <= k -> 0 <= x < 2 ^ k -> Zdigits2 x <= k.
Proof.
  intros Hk [H0 Hx]. destruct x as [|m|m]; cbn [Zdigits2]; try lia.
  destruct (digits2_bounds m) as [Hlo _].
  assert (Z.pos (digits2_pos m) - 1 < k).
  { apply (Z.pow_lt_mono_r_iff 2); lia. }
  lia.
Qed.

Lemma Zdigits2_nonneg (x : Z) : 0 <= Zdigits2 x.
Proof. destruct x; cbn [Zdigits2]; lia. Qed.

Lemma Zdigits2_bounds (x : Z) :
  0 < x -> 2 ^ (Zdigits2 x - 1) <= x < 2 ^ Zdigits2 x.
Proof.
  intros Hx. destruct x as [|m|m]; try lia. apply digits2_bounds.
Qed.

Lemma fexp_ge_emin (x : Z) : emin prec emax <= fexp prec emax x.
Proof. unfold fexp. lia. Qed.

(** The first shift and the rounding to nearest even of an exact mantissa. *)
Lemma round_stage1 (m e : Z) :
  0 < m ->
  let n := fexp prec emax (Zdigits2 m + e) - e in
  let N := Z.max 0 n in
  let m1 := round_nearest_even
              (shr_m (fst (shr_fexp prec emax m e loc_Exact)))
              (loc_of_shr_record (fst (shr_fexp prec emax m e loc_Exact))) in
  snd (shr_fexp prec emax m e loc_Exact) = e + N /\
  0 <= m1 <= 2 ^ 53 /\
  emin prec emax <= e + N /\
  2 * Z.abs (m1 * 2 ^ N - m) <= 2 ^ N /\
  (0 <= n -> 2 ^ 52 <= m1 \/ e + N = emin prec emax).
Proof.
  intros Hm n N m1.
  pose proof (Zdigits2_bounds m Hm) as [Hlo Hhi].
  pose proof (Zdigits2_nonneg m) as Hd0.
  assert (Hd1 : 1 <= Zdigits2 m).
  { destruct m; cbn [Zdigits2]; lia. }
  set (d := Zdigits2 m) in *.
  unfold shr_fexp, shr in *. fold d in n, m1 |- *. fold n in m1 |- *.
  cbn [shr_record_of_loc] in *.
  destruct n as [|p|p] eqn:En.
  - (* no shift *)
    cbn [fst snd shr_m loc_of_shr_record round_nearest_even] in *.
    subst m1 N. cbn [Z.max].
    assert (Hf : fexp prec emax (d + e) = e) by lia.
    unfold fexp, emin, prec, emax in *.
    assert (d <= 53) by lia.
    assert (2 ^ d <= 2 ^ 53) by (apply Z.pow_le_mono_r; lia).
    rewrite Z.pow_0_r, Z.mul_1_r, Z.add_0_r, Z.sub_diag.
    repeat split; try lia.
    intros _. destruct (Z.eq_dec d 53) as [E|E]; [left|right; lia].
    rewrite E in Hlo. exact Hlo.
  - (* shift by p *)
    cbn [fst snd] in *.
    pose proof (shr_inv_iter m p 0 _ (shr_inv_0 m ltac:(lia))) as Hinv.
    rewrite Z.add_0_l in Hinv.
    destruct (iter_pos shr_1 p _) as [m' rb sb].
    destruct Hinv as (_ & _ & Hm' & Ht & Hf & Hs). cbn [shr_m shr_r shr_s] in *.
    subst N. replace (Z.max 0 (Z.pos p)) with (Z.pos p) by lia.
    assert (Hp : 0 < 2 ^ Z.pos p) by (apply Z.pow_pos_nonneg; lia).
    pose proof (Z.div_mod m (2 ^ Z.pos p) ltac:(lia)) as Hdm.
    pose proof (Z.mod_pos_bound m (2 ^ Z.pos p) Hp) as Hrem.
    rewrite <- Hm' in Hdm.
    assert (Hm0 : 0 <= m') by (rewrite Hm'; apply Z.div_pos; lia).
    assert (He' : e + Z.pos p = fexp prec emax (d + e)) by lia.
    assert (Hdn : d - Z.pos p <= 53).
    { unfold fexp in He'. unfold prec in *. lia. }
    assert (Hup : m' < 2 ^ 53).
    { destruct (Z_lt_le_dec (d - Z.pos p) 0) as [Hneg|Hpos].
      - assert (2 ^ d <= 2 ^ Z.pos p) by (apply Z.pow_le_mono_r; lia).
        assert (m' = 0) by (rewrite Hm'; apply Z.div_small; lia). lia.
      - assert (E : 2 ^ d = 2 ^ (d - Z.pos p) * 2 ^ Z.pos p).
        { rewrite <- Z.pow_add_r by lia. f_equal. lia. }
        assert (m' < 2 ^ (d - Z.pos p)).
        { rewrite Hm'. apply Z.div_lt_upper_bound; lia. }
        assert (2 ^ (d - Z.pos p) <= 2 ^ 53) by (apply Z.pow_le_mono_r; lia).
        lia. }
    assert (Hcan : 2 ^ 52 <= m' \/ e + Z.pos p = emin prec emax).
    { unfold fexp in He'. unfold prec in *.
      destruct (Z.max_spec (d + e - 53) (emin 53 emax)) as [[_ E]|[_ E]];
        rewrite E in He'; [right; exact He'|left].
      assert (E2 : 2 ^ (d - 1) = 2 ^ 52 * 2 ^ Z.pos p).
      { rewrite <- Z.pow_add_r by lia. f_equal. lia. }
      rewrite Hm'. apply Z.div_le_lower_bound; lia. }
    subst m1.
    split; [reflexivity|].
    destruct rb, sb; cbn [loc_of_shr_record round_nearest_even Z.b2z] in *;
      try specialize (Ht eq_refl); try specialize (Hf eq_refl);
      try specialize (Hs eq_refl);
      try (destruct (Z.even m'));
      (split; [lia|]); (split; [rewrite He'; apply fexp_ge_emin|]);
      (split; [lia|]); intros _; lia.
  - (* negative shift: none *)
    cbn [fst snd shr_m loc_of_shr_record round_nearest_even] in *.
    subst m1 N. cbn [Z.max].
    pose proof (fexp_ge_emin (d + e)) as Hge.
    unfold fexp, emin, prec, emax in *.
    assert (d <= 53) by lia.
    assert (2 ^ d <= 2 ^ 53) by (apply Z.pow_le_mono_r; lia).
    rewrite Z.pow_0_r, Z.mul_1_r, Z.add_0_r, Z.sub_diag.
    repeat split; try lia.
Qed.

(** The second shift only renormalises a mantissa that the rounding carried
    to [2^53]. *)
Lemma round_stage2 (m1 e1 : Z) :
  0 <= m1 <= 2 ^ 53 -> emin prec emax <= e1 ->
  let mf := shr_m (fst (shr_fexp prec emax m1 e1 loc_Exact)) in
  let ef := snd (shr_fexp prec emax m1 e1 loc_Exact) in
  0 <= mf /\ e1 <= ef <= e1 + 1 /\ mf * 2 ^ (ef - e1) = m1 /\
  (0 < m1 -> 2 ^ 52 <= m1 \/ e1 = emin prec emax ->
   fexp prec emax (Zdigits2 mf + ef) = ef).
Proof.
  intros [H0 H53] He mf ef.
  destruct (Z.eq_dec m1 (2 ^ 53)) as [E|E].
  - subst m1 mf ef. unfold shr_fexp, shr.
    change (Zdigits2 (2 ^ 53)) with 54.
    assert (Hn : fexp prec emax (54 + e1) - e1 = 1).
    { unfold fexp, emin, prec, emax in *. lia. }
    rewrite Hn. cbn [fst snd shr_record_of_loc iter_pos].
    change (shr_m (shr_1 {| shr_m := 2 ^ 53; shr_r := false; shr_s := false |}))
      with (2 ^ 52).
    replace (e1 + 1 - e1) with 1 by lia.
    repeat split; try lia.
    intros _ _. change (Zdigits2 (2 ^ 52)) with 53.
    unfold fexp, emin, prec, emax in *. lia.
  - assert (Hd : Zdigits2 m1 <= 53) by (apply Zdigits2_upper; lia).
    subst mf ef. unfold shr_fexp, shr.
    assert (Hn : fexp prec emax (Zdigits2 m1 + e1) - e1 <= 0).
    { unfold fexp, emin, prec, emax in *. lia. }
    destruct (fexp prec emax (Zdigits2 m1 + e1) - e1) as [|p|p] eqn:En; try lia;
      cbn [fst snd shr_record_of_loc shr_m];
      rewrite Z.sub_diag, Z.pow_0_r, Z.mul_1_r;
      (repeat split; try lia);
      intros Hpos Hcan;
      assert (Hd53 : 2 ^ 52 <= m1 -> Zdigits2 m1 = 53)
        by (intros Hge; pose proof (Zdigits2_lower m1 52 ltac:(lia) Hge); lia);
      unfold fexp, emin, prec, emax in *; lia.
Qed.

(** What [binary_round_aux] returns for an exact mantissa [m] at exponent
    [e]: a mantissa [mf] at an exponent [ef >= e], within half a unit of the
    exponent [e + N] chosen by the first shift. *)
Lemma binary_round_aux_spec (b : bool) (m e : Z) :
  0 < m ->
  let n := fexp prec emax (Zdigits2 m + e) - e in
  let N := Z.max 0 n in
  exists mf ef,
    binary_round_aux prec emax b m e loc_Exact
    = match mf with
      | Z0 => S754_zero b
      | Z.pos p =>
          if ef <=? emax - prec then S754_finite b p ef else S754_infinity b
      | Z.neg _ => S754_nan
      end /\
    0 <= mf /\ e + N <= ef /\
    2 * Z.abs (mf * 2 ^ (ef - e) - m) <= 2 ^ N /\
    (0 <= n -> 0 < mf -> fexp prec emax (Zdigits2 mf + ef) = ef).
Proof.
  intros Hm n N.
  destruct (round_stage1 m e Hm) as (He1 & Hm1 & Hemin & Herr & Hcan).
  fold n in He1, Hemin, Herr, Hcan. fold N in He1, Hemin, Herr, Hcan.
  unfold binary_round_aux.
  destruct (shr_fexp prec emax m e loc_Exact) as [mrs' e1].
  cbn [fst snd] in *. subst e1.
  set (m1 := round_nearest_even (shr_m mrs') (loc_of_shr_record mrs')) in *.
  destruct (round_stage2 m1 (e + N) Hm1 Hemin) as (Hf0 & Hef & Hval & Hcan2).
  destruct (shr_fexp prec emax m1 (e + N) loc_Exact) as [mrs'' ef].
  cbn [fst snd] in *.
  exists (shr_m mrs''), ef. split; [reflexivity|].
  split; [exact Hf0|]. split; [lia|].
  assert (HN : 0 <= N) by (subst N; lia).
  split.
  - replace (ef - e) with ((ef - (e + N)) + N) by lia.
    rewrite Z.pow_add_r, Z.mul_assoc, Hval by lia. exact Herr.
  - intros Hn Hpos. apply Hcan2; [|now apply Hcan].
    destruct (Z.eq_dec m1 0) as [E|E]; [|lia].
    rewrite E in Hval. assert (0 < 2 ^ (ef - (e + N))) by (apply Z.pow_pos_nonneg; lia).
    nia.
Qed.

(** Where the first shift loses nothing, or less than one part in [2^52]. *)
Lemma round_rel (b : bool) (m e : Z) :
  0 < m ->
  let n := fexp prec emax (Zdigits2 m + e) - e in
  let N := Z.max 0 n in
  (2 ^ (N + 51) <= m \/ (2 ^ N | m)) ->
  exists (mf : positive) (ef : Z),
    binary_round_aux prec emax b m e loc_Exact
    = (if ef <=? emax - prec then S754_finite b mf ef else S754_infinity b) /\
    e <= ef /\
    2 ^ 52 * Z.abs (Z.pos mf * 2 ^ (ef - e) - m) <= m /\
    ((2 ^ N | m) -> Z.pos mf * 2 ^ (ef - e) = m) /\
    (0 <= n -> fexp prec emax (Zdigits2 (Z.pos mf) + ef) = ef).
Proof.
  intros Hm n N Hc.
  destruct (binary_round_aux_spec b m e Hm)
    as (mf & ef & Hr & Hmf & Hef & Herr & Hcan).
  fold n in Hef, Herr, Hcan. fold N in Hef, Herr.
  assert (HN : 0 <= N) by (subst N; lia).
  assert (HpN : 0 < 2 ^ N) by (apply Z.pow_pos_nonneg; lia).
  assert (Hexact : (2 ^ N | m) -> mf * 2 ^ (ef - e) = m).
  { intros [q Hq].
    assert (E : 2 ^ (ef - e) = 2 ^ (ef - e - N) * 2 ^ N).
    { rewrite <- Z.pow_add_r by lia. f_equal. lia. }
    rewrite E, Hq in Herr |- *.
    rewrite Z.mul_assoc, <- Z.mul_sub_distr_r in Herr.
    rewrite Z.abs_mul, (Z.abs_eq (2 ^ N)) in Herr by lia.
    assert (Z.abs (mf * 2 ^ (ef - e - N) - q) = 0) by nia.
    assert (mf * 2 ^ (ef - e - N) = q) by lia.
    rewrite Z.mul_assoc. congruence. }
  assert (Hrel : 2 ^ 52 * Z.abs (mf * 2 ^ (ef - e) - m) <= m).
  { destruct Hc as [Hc|Hc].
    - rewrite Z.pow_add_r in Hc by lia.
      change (2 ^ 52) with (2 ^ 51 * 2).
      assert (0 < 2 ^ 51) by reflexivity.
      nia.
    - rewrite (Hexact Hc), Z.sub_diag. simpl. lia. }
  assert (Hpos : 0 < mf).
  { destruct (Z.eq_dec mf 0) as [E|E]; [|lia].
    rewrite E, Z.mul_0_l, Z.sub_0_l, Z.abs_opp, Z.abs_eq in Hrel by lia.
    assert (1 < 2 ^ 52) by reflexivity. nia. }
  destruct mf as [|p|p]; try lia.
  exists p, ef. repeat split; auto; lia.
Qed.

(** Canonical mantissas: at most 53 digits, and exactly 53 above the
    smallest exponent. *)
Lemma canonical_inv (m : positive) (e : Z) :
  canonical_mantissa prec emax m e = true ->
  emin prec emax <= e /\ Zdigits2 (Z.pos m) <= 53 /\
  (e = emin prec emax \/ Zdigits2 (Z.pos m) = 53).
Proof.
  unfold canonical_mantissa. intros H. apply Z.eqb_eq in H.
  change (Z.pos (digits2_pos m)) with (Zdigits2 (Z.pos m)) in H.
  unfold fexp, emin, prec, emax in *. lia.
Qed.

Lemma Zdigits2_mul_lower (x y : Z) :
  0 < x -> 0 < y -> Zdigits2 x + Zdigits2 y - 1 <= Zdigits2 (x * y).
Proof.
  intros Hx Hy.
  destruct (Zdigits2_bounds x Hx) as [Hlx _].
  destruct (Zdigits2_bounds y Hy) as [Hly _].
  assert (1 <= Zdigits2 x) by (destruct x; cbn [Zdigits2]; lia).
  assert (1 <= Zdigits2 y) by (destruct y; cbn [Zdigits2]; lia).
  assert (Hxy : 2 ^ (Zdigits2 x - 1 + (Zdigits2 y - 1)) <= x * y).
  { rewrite Z.pow_add_r by lia.
    apply Z.mul_le_mono_nonneg; try lia; apply Z.pow_nonneg; lia. }
  pose proof (Zdigits2_lower (x * y) (Zdigits2 x - 1 + (Zdigits2 y - 1))
                ltac:(lia) Hxy). lia.
Qed.

(** The product of two binary64 numbers is shifted right, never left. *)
Lemma mul_shift_nonneg (mx my : positive) (ex ey : Z) :
  canonical_mantissa prec emax mx ex = true ->
  canonical_mantissa prec emax my ey = true ->
  0 <= fexp prec emax (Zdigits2 (Z.pos (mx * my)) + (ex + ey)) - (ex + ey).
Proof.
  intros Hx Hy.
  apply canonical_inv in Hx as (Hex & Hdx & Hx).
  apply canonical_inv in Hy as (Hey & Hdy & Hy).
  pose proof (Zdigits2_mul_lower (Z.pos mx) (Z.pos my) ltac:(lia) ltac:(lia)) as Hd.
  change (Z.pos mx * Z.pos my) with (Z.pos (mx * my)) in Hd.
  assert (1 <= Zdigits2 (Z.pos mx)) by (cbn [Zdigits2]; lia).
  assert (1 <= Zdigits2 (Z.pos my)) by (cbn [Zdigits2]; lia).
  unfold fexp, emin, prec, emax in *. lia.
Qed.

(** A float whose value is a whole number. *)
Lemma integral_mul_cond (mx my : positive) (ex ey : Z) :
  emin prec emax <= ex ->
  (0 <= ey \/ (2 ^ (- ey) | Z.pos my)) ->
  let m := Z.pos (mx * my) in
  let N := Z.max 0 (fexp prec emax (Zdigits2 m + (ex + ey)) - (ex + ey)) in
  2 ^ (N + 51) <= m \/ (2 ^ N | m).
Proof.
  intros Hex Hint m N.
  pose proof (Zdigits2_bounds m ltac:(subst m; lia)) as [Hlo _].
  assert (Hd1 : 1 <= Zdigits2 m) by (subst m; cbn [Zdigits2]; lia).
  set (d := Zdigits2 m) in *.
  destruct (Z.eq_dec N 0) as [E0|E0].
  { right. rewrite E0. exists m. lia. }
  destruct (Z.eq_dec N (d - 53)) as [E1|E1].
  { left. rewrite E1.
    assert (2 ^ (d - 53 + 51) <= 2 ^ (d - 1)) by (apply Z.pow_le_mono_r; lia).
    lia. }
  right.
  assert (HN : N = emin prec emax - (ex + ey)).
  { subst N. unfold fexp, emin, prec, emax in *. lia. }
  assert (Hey : ey < 0) by (subst N; unfold fexp, emin, prec, emax in *; lia).
  destruct Hint as [Hint|[q Hq]]; [lia|].
  assert (HNle : 0 <= N <= - ey) by (subst N; unfold fexp, emin, prec, emax in *; lia).
  exists (Z.pos mx * q * 2 ^ (- ey - N)).
  subst m. rewrite Pos2Z.inj_mul, Hq.
  rewrite <- !Z.mul_assoc, <- Z.pow_add_r by lia.
  replace (- ey - N + N) with (- ey) by lia. reflexivity.
Qed.

End RoundingError.

(** ** Rounding, on the values *)

Section RoundingErrorOnValues.

Import Float64.
Local Open Scope Q_scope.

Lemma pow2_pos (e : Z) : 0 < 2 ^ e.
Proof. apply Qpower_0_lt. reflexivity. Qed.

Lemma pow2_add (a b : Z) : 2 ^ (a + b) == 2 ^ a * 2 ^ b.
Proof. apply Qpower_plus. discriminate. Qed.

Lemma pow2_Z (k : Z) : (0 <= k)%Z -> inject_Z (2 ^ k) == 2 ^ k.
Proof. intros Hk. apply (Zpower_Qpower 2 k Hk). Qed.

Lemma pow2_le (a b : Z) : (a <= b)%Z -> 2 ^ a <= 2 ^ b.
Proof. intros H. apply Qpower_le_compat_l; [exact H|discriminate]. Qed.

Lemma pow2_lt_inv (a b : Z) : 2 ^ a < 2 ^ b -> (a < b)%Z.
Proof. intros H. apply (Qpower_lt_compat_l_inv 2); [exact H|reflexivity]. Qed.

(** The value of a positive finite float. *)
Lemma SF2Q_finite (m : positive) (e : Z) :
  SF2Q (S754_finite false m e) == inject_Z (Z.pos m) * 2 ^ e.
Proof.
  unfold SF2Q. destruct e as [|k|k].
  - change (2 ^ 0) with 1. rewrite Qmult_1_r. reflexivity.
  - change ((Z.pos m * 2 ^ Z.pos k) # 1) with (inject_Z (Z.pos m * 2 ^ Z.pos k)).
    rewrite inject_Z_mult, pow2_Z by lia. reflexivity.
  - rewrite Qmake_Qdiv. unfold Qdiv. apply Qmult_comp; [reflexivity|].
    rewrite Pos2Z.inj_pow, pow2_Z by lia. reflexivity.
Qed.

Lemma SF2Q_finite_pos (m : positive) (e : Z) : 0 < SF2Q (S754_finite false m e).
Proof.
  rewrite SF2Q_finite. apply Qmult_lt_0_compat; [|apply pow2_pos].
  change 0 with (inject_Z 0). rewrite <- Zlt_Qlt. lia.
Qed.

Lemma scale_value (mf e ef : Z) :
  (e <= ef)%Z -> inject_Z mf * 2 ^ ef == inject_Z (mf * 2 ^ (ef - e)) * 2 ^ e.
Proof.
  intros H. rewrite inject_Z_mult, pow2_Z by lia.
  rewrite <- Qmult_assoc, <- pow2_add.
  replace (ef - e + e)%Z with ef by lia. reflexivity.
Qed.

(** An integer bound of one part in [2^52], read on the values. *)
Lemma rel_Z_Q (W m : Z) (s : Q) :
  0 < s -> (2 ^ 52 * Z.abs (W - m) <= m)%Z ->
  (1 - epsilon) * (inject_Z m * s) <= inject_Z W * s /\
  inject_Z W * s <= (1 + epsilon) * (inject_Z m * s).
Proof.
  intros Hs H.
  assert (H1 : (4503599627370496 * (W - m) <= m)%Z) by lia.
  assert (H2 : (4503599627370496 * (m - W) <= m)%Z) by lia.
  rewrite Zle_Qle in H1, H2.
  rewrite inject_Z_mult in H1, H2.
  unfold Zminus in H1, H2. rewrite inject_Z_plus, inject_Z_opp in H1, H2.
  change (inject_Z 4503599627370496) with (4503599627370496 # 1) in H1, H2.
  unfold epsilon.
  set (a := inject_Z W) in *. set (b := inject_Z m) in *.
  split.
  - setoid_replace ((1 - (1 # 4503599627370496)) * (b * s))
      with (((1 - (1 # 4503599627370496)) * b) * s) by ring.
    apply Qmult_le_compat_r; [lra|apply Qlt_le_weak, Hs].
  - setoid_replace ((1 + (1 # 4503599627370496)) * (b * s))
      with (((1 + (1 # 4503599627370496)) * b) * s) by ring.
    apply Qmult_le_compat_r; [lra|apply Qlt_le_weak, Hs].
Qed.

(** In the normal range the first shift keeps at least 52 digits. *)
Lemma range_cond (m e : Z) :
  (0 < m)%Z -> (-1022 <= Zdigits2 m + e)%Z ->
  let N := Z.max 0 (fexp prec emax (Zdigits2 m + e) - e) in
  (2 ^ (N + 51) <= m \/ (2 ^ N | m))%Z.
Proof.
  intros Hm Hr N.
  pose proof (Zdigits2_bounds m Hm) as [Hlo _].
  destruct (Z.eq_dec N 0) as [E0|E0].
  { right. rewrite E0. exists m. lia. }
  left.
  assert (HN : (0 <= N <= Zdigits2 m - 52)%Z).
  { subst N. unfold fexp, emin, prec, emax in *. lia. }
  assert ((2 ^ (N + 51) <= 2 ^ (Zdigits2 m - 1))%Z)
    by (apply Z.pow_le_mono_r; lia).
  lia.
Qed.

Lemma value_lt_pow2 (m e : Z) :
  (0 < m)%Z -> inject_Z m * 2 ^ e < 2 ^ (Zdigits2 m + e).
Proof.
  intros Hm. pose proof (Zdigits2_bounds m Hm) as [_ Hhi].
  pose proof (Zdigits2_nonneg m) as Hd.
  rewrite pow2_add, <- (pow2_Z (Zdigits2 m)) by lia.
  apply Qmult_lt_compat_r; [apply pow2_pos|].
  rewrite <- Zlt_Qlt. exact Hhi.
Qed.

Lemma Q_range (m e : Z) :
  (0 < m)%Z -> 2 ^ (-1023) <= inject_Z m * 2 ^ e ->
  (-1022 <= Zdigits2 m + e)%Z.
Proof.
  intros Hm H.
  pose proof (value_lt_pow2 m e Hm) as Hlt.
  assert (Hp : 2 ^ (-1023) < 2 ^ (Zdigits2 m + e)).
  { eapply Qle_lt_trans; eassumption. }
  apply pow2_lt_inv in Hp. lia.
Qed.

(** A result in the normal range comes from a product in the normal range. *)
Lemma normal_result_range (m e : Z) :
  (0 < m)%Z ->
  min_normal <= SF2Q (binary_round_aux prec emax false m e loc_Exact) ->
  (-1022 <= Zdigits2 m + e)%Z.
Proof.
  intros Hm H.
  destruct (Z_le_gt_dec (-1022) (Zdigits2 m + e)) as [Hok|Hlow]; [exact Hok|].
  exfalso.
  assert (Hmin : 0 < min_normal) by apply pow2_pos.
  destruct (binary_round_aux_spec false m e Hm)
    as (mf & ef & Hr & Hmf & Hef & Herr & _).
  pose proof (Zdigits2_bounds m Hm) as [_ Hhi].
  assert (Hd1 : (1 <= Zdigits2 m)%Z) by (destruct m; cbn [Zdigits2]; lia).
  set (d := Zdigits2 m) in *.
  set (N := Z.max 0 (fexp prec emax (d + e) - e)) in *.
  assert (HN : (0 <= N /\ N + e <= -1024)%Z).
  { subst N. unfold fexp, emin, prec, emax in *. lia. }
  rewrite Hr in H.
  destruct mf as [|p|p]; [apply (Qlt_not_le _ _ Hmin H)| |lia].
  destruct (ef <=? emax - prec)%Z; [|apply (Qlt_not_le _ _ Hmin H)].
  rewrite SF2Q_finite, (scale_value _ e ef) in H by lia.
  set (W := (Z.pos p * 2 ^ (ef - e))%Z) in *.
  assert (HW : (2 * W + 1 <= 2 ^ (d + 1) + 2 ^ N)%Z).
  { rewrite Z.pow_add_r by lia. change (2 ^ 1)%Z with 2%Z. lia. }
  rewrite Zle_Qle in HW.
  rewrite !inject_Z_plus, inject_Z_mult in HW.
  rewrite (pow2_Z (d + 1)), (pow2_Z N) in HW by lia.
  change (inject_Z 2) with 2 in HW. change (inject_Z 1) with 1 in HW.
  assert (HWe : (2 * inject_Z W + 1) * 2 ^ e <= (2 ^ (d + 1) + 2 ^ N) * 2 ^ e).
  { apply Qmult_le_compat_r; [exact HW|apply Qlt_le_weak, pow2_pos]. }
  assert (E1 : (2 ^ (d + 1) + 2 ^ N) * 2 ^ e == 2 ^ (d + 1 + e) + 2 ^ (N + e)).
  { rewrite !pow2_add. ring. }
  rewrite E1 in HWe.
  assert (B1 : 2 ^ (d + 1 + e) <= min_normal) by (apply pow2_le; lia).
  assert (B2 : 2 ^ (N + e) <= min_normal) by (apply pow2_le; lia).
  pose proof (pow2_pos e) as He.
  generalize dependent (2 ^ (d + 1 + e)). generalize dependent (2 ^ (N + e)).
  generalize dependent (inject_Z W). generalize dependent (2 ^ e).
  generalize dependent min_normal.
  intros. nra.
Qed.

(** The product of two positive finite floats, where the first shift loses
    less than one part in [2^52]: an overflow, or a float that close to the
    exact product. *)
Lemma SFmul_rel (mx my : positive) (ex ey : Z) :
  let m := Z.pos (mx * my) in
  let n := (fexp prec emax (Zdigits2 m + (ex + ey)) - (ex + ey))%Z in
  (2 ^ (Z.max 0 n + 51) <= m \/ (2 ^ Z.max 0 n | m))%Z ->
  let x := S754_finite false mx ex in
  let y := S754_finite false my ey in
  SFmul prec emax x y = S754_infinity false \/
  exists mz ez,
    SFmul prec emax x y = S754_finite false mz ez /\
    (1 - epsilon) * (SF2Q x * SF2Q y) <= SF2Q (S754_finite false mz ez) /\
    SF2Q (S754_finite false mz ez) <= (1 + epsilon) * (SF2Q x * SF2Q y) /\
    (ez <= emax - prec)%Z /\
    ((0 <= n)%Z -> canonical_mantissa prec emax mz ez = true).
Proof.
  intros m n Hc x y.
  destruct (round_rel false m (ex + ey) ltac:(subst m; lia) Hc)
    as (mf & ef & Hr & Hef & Hrel & _ & Hcan).
  change (SFmul prec emax x y)
    with (binary_round_aux prec emax false m (ex + ey) loc_Exact).
  rewrite Hr.
  destruct (ef <=? emax - prec)%Z eqn:Hov; [right|left; reflexivity].
  exists mf, ef. split; [reflexivity|].
  assert (EX : SF2Q x * SF2Q y == inject_Z m * 2 ^ (ex + ey)).
  { subst x y m. rewrite !SF2Q_finite, Pos2Z.inj_mul, inject_Z_mult, pow2_add.
    ring. }
  assert (EZ : SF2Q (S754_finite false mf ef)
               == inject_Z (Z.pos mf * 2 ^ (ef - (ex + ey))) * 2 ^ (ex + ey)).
  { rewrite SF2Q_finite. apply scale_value. exact Hef. }
  destruct (rel_Z_Q _ _ (2 ^ (ex + ey)) (pow2_pos _) Hrel) as [Hlo Hhi].
  rewrite EX, EZ.
  split; [exact Hlo|]. split; [exact Hhi|].
  split; [apply Z.leb_le, Hov|].
  intros Hn. unfold canonical_mantissa. apply Z.eqb_eq.
  exact (Hcan Hn).
Qed.

End RoundingErrorOnValues.

(** ** [float(n)] for a positive [int] *)

Section Conversions.

Import Float64.

Lemma Zdigits2_shift (c k : Z) :
  0 < c -> 0 <= k -> Zdigits2 (c * 2 ^ k) = Zdigits2 c + k.
Proof.
  intros Hc Hk.
  destruct (Zdigits2_bounds c Hc) as [Hlo Hhi].
  assert (Hd1 : 1 <= Zdigits2 c) by (destruct c; cbn [Zdigits2]; lia).
  assert (Hp : 0 < 2 ^ k) by (apply Z.pow_pos_nonneg; lia).
  assert (H1 : 2 ^ (Zdigits2 c - 1 + k) <= c * 2 ^ k).
  { rewrite Z.pow_add_r by lia. nia. }
  assert (H2 : c * 2 ^ k < 2 ^ (Zdigits2 c + k)).
  { rewrite Z.pow_add_r by lia. nia. }
  pose proof (Zdigits2_lower _ (Zdigits2 c - 1 + k) ltac:(lia) H1).
  pose proof (Zdigits2_upper (c * 2 ^ k) (Zdigits2 c + k) ltac:(lia) ltac:(lia)).
  lia.
Qed.

(** [float(c)] for a positive [int]: the mantissa is first aligned to 53
    digits, then rounded. *)
Lemma float_of_Z_round (c : positive) :
  exists (m e : Z),
    float_of_Z (Z.pos c) = binary_round_aux prec emax false m e loc_Exact /\
    0 < m /\ - 52 <= e <= 0 /\ m = Z.pos c * 2 ^ (- e) /\
    0 <= fexp prec emax (Zdigits2 m + e) - e /\
    (e < 0 -> Z.pos c < 2 ^ 53) /\
    (Z.pos c < 2 ^ 53 -> fexp prec emax (Zdigits2 m + e) - e = 0).
Proof.
  unfold float_of_Z, binary_normalize, binary_round, shl_align.
  change (Z.pos (digits2_pos c)) with (Zdigits2 (Z.pos c)).
  pose proof (Zdigits2_bounds (Z.pos c) ltac:(lia)) as [Hlo Hhi].
  assert (Hd1 : 1 <= Zdigits2 (Z.pos c)) by (cbn [Zdigits2]; lia).
  set (d := Zdigits2 (Z.pos c)) in *.
  assert (Hf : fexp prec emax (d + 0) = d - 53).
  { unfold fexp, emin, prec, emax. lia. }
  rewrite Hf. rewrite Z.sub_0_r.
  destruct (d - 53) as [|k|k] eqn:Ek.
  - exists (Z.pos c), 0. split; [reflexivity|].
    fold d. rewrite Z.mul_1_r.
    repeat split; try lia; intros; unfold fexp, emin, prec, emax; lia.
  - exists (Z.pos c), 0. split; [reflexivity|].
    fold d. rewrite Z.mul_1_r.
    assert (2 ^ 53 <= 2 ^ (d - 1)) by (apply Z.pow_le_mono_r; lia).
    repeat split; try lia; intros; unfold fexp, emin, prec, emax; lia.
  - exists (Z.pos (Pos.iter xO c k)), (Z.neg k). split; [reflexivity|].
    assert (Em : Z.pos (Pos.iter xO c k) = Z.pos c * 2 ^ Z.pos k).
    { rewrite Z.mul_comm. apply (shift_pos_correct k c). }
    rewrite Em. change (- Z.neg k) with (Z.pos k).
    rewrite (Zdigits2_shift (Z.pos c) (Z.pos k)) by lia. fold d.
    assert (0 < 2 ^ Z.pos k) by (apply Z.pow_pos_nonneg; lia).
    assert (2 ^ d <= 2 ^ 53) by (apply Z.pow_le_mono_r; lia).
    repeat split; try lia; try nia; intros; unfold fexp, emin, prec, emax; lia.
Qed.

Lemma float_of_Z_pos (c : Z) :
  0 < c -> fits c = true ->
  canonical_pos (float_of_Z c) /\ whole (float_of_Z c).
Proof.
  intros Hc Hfits. destruct c as [|c|c]; try lia.
  destruct (float_of_Z_round c) as (m & e & Hr & Hm & He & Em & Hn & Hsmall & Hexact).
  assert (Hcond : 2 ^ (Z.max 0 (fexp prec emax (Zdigits2 m + e) - e) + 51) <= m
                  \/ (2 ^ Z.max 0 (fexp prec emax (Zdigits2 m + e) - e) | m)).
  { pose proof (Zdigits2_bounds m Hm) as [Hlo _].
    set (n := fexp prec emax (Zdigits2 m + e) - e) in *.
    destruct (Z.eq_dec n 0) as [E|E].
    - right. rewrite E. exists m. simpl. lia.
    - left. replace (Z.max 0 n) with n by lia.
      assert (n <= Zdigits2 m - 53).
      { subst n. unfold fexp, emin, prec, emax in *. lia. }
      assert (2 ^ (n + 51) <= 2 ^ (Zdigits2 m - 1))
        by (apply Z.pow_le_mono_r; lia).
      lia. }
  destruct (round_rel false m e Hm Hcond) as (mf & ef & Hbra & Hef & Hrel & Hex & Hcan).
  simpl fits in Hfits. unfold float_fits in Hfits.
  rewrite Hr, Hbra in Hfits |- *.
  destruct (ef <=? emax - prec); [|discriminate].
  split.
  - exists mf, ef. split; [reflexivity|].
    unfold canonical_mantissa. apply Z.eqb_eq. exact (Hcan Hn).
  - exists mf, ef. split; [reflexivity|].
    destruct (Z_le_gt_dec 0 ef) as [H0|H0]; [left; exact H0|right].
    (* below the units the mantissa was aligned, not rounded *)
    assert (He' : e < 0) by lia.
    assert (Hn0 : fexp prec emax (Zdigits2 m + e) - e = 0)
      by (apply Hexact, Hsmall, He').
    rewrite Hn0 in Hex. specialize (Hex ltac:(exists m; simpl; lia)).
    exists (Z.pos c * 2 ^ (ef - e) / 2 ^ (ef - e) * 1).
    assert (Hp : 0 < 2 ^ (ef - e)) by (apply Z.pow_pos_nonneg; lia).
    rewrite Z.mul_1_r, Z.div_mul by lia.
    assert (E2 : 2 ^ (- e) = 2 ^ (- ef) * 2 ^ (ef - e)).
    { rewrite <- Z.pow_add_r by lia. f_equal. lia. }
    rewrite Em, E2, Z.mul_assoc in Hex.
    apply Z.mul_reg_r in Hex; lia.
Qed.

(** Below [2^53] the conversion is exact and cannot overflow. *)
Lemma float_of_Z_exact (c : Z) :
  0 < c < 2 ^ 53 ->
  fits c = true /\ (SF2Q (float_of_Z c) == inject_Z c)%Q.
Proof.
  intros [Hc Hlt]. destruct c as [|c|c]; try lia.
  destruct (float_of_Z_round c) as (m & e & Hr & Hm & He & Em & Hn & _ & Hexact).
  specialize (Hexact Hlt).
  assert (Hdiv : (2 ^ Z.max 0 (fexp prec emax (Zdigits2 m + e) - e) | m)).
  { rewrite Hexact. exists m. simpl. lia. }
  destruct (round_rel false m e Hm (or_intror Hdiv))
    as (mf & ef & Hbra & Hef & _ & Hex & _).
  specialize (Hex Hdiv).
  assert (Hov : ef <= emax - prec).
  { assert (Hp : 0 < 2 ^ (- e)) by (apply Z.pow_pos_nonneg; lia).
    assert (H1 : 2 ^ (ef - e) <= Z.pos mf * 2 ^ (ef - e)).
    { assert (0 < 2 ^ (ef - e)) by (apply Z.pow_pos_nonneg; lia). nia. }
    assert (H2 : m < 2 ^ (53 - e)).
    { replace (53 - e) with (53 + - e) by lia.
      rewrite Em, Z.pow_add_r by lia. nia. }
    assert (ef - e < 53 - e).
    { apply (Z.pow_lt_mono_r_iff 2); lia. }
    unfold emax, prec. lia. }
  apply Z.leb_le in Hov.
  simpl fits. unfold float_fits. rewrite Hr, Hbra, Hov.
  split; [reflexivity|].
  rewrite SF2Q_finite, (scale_value _ e ef Hef), Hex, Em.
  rewrite inject_Z_mult, pow2_Z, <- Qmult_assoc, <- pow2_add by lia.
  replace (- e + e) with 0 by lia. change (2 ^ 0)%Q with 1%Q.
  apply Qmult_1_r.
Qed.

End Conversions.

(** ** The products of the script *)

Section Products.

Import Float64 Widgets.
Local Open Scope Q_scope.

Lemma canonical_pos_pos (x : float) : canonical_pos x -> 0 < SF2Q x.
Proof. intros (m & e & -> & _). apply SF2Q_finite_pos. Qed.

(** The four ways the script's products are rounded.  Every one yields an
    overflow or a canonical float within one part in [2^52] of the exact
    product. *)
Lemma mul_close (x y : float) (mx my : positive) (ex ey : Z) :
  x = S754_finite false mx ex -> y = S754_finite false my ey ->
  canonical_mantissa prec emax mx ex = true ->
  canonical_mantissa prec emax my ey = true ->
  (let m := Z.pos (mx * my) in
   let n := (fexp prec emax (Zdigits2 m + (ex + ey)) - (ex + ey))%Z in
   (2 ^ (Z.max 0 n + 51) <= m \/ (2 ^ Z.max 0 n | m))%Z) ->
  mul x y = S754_infinity false \/
  (canonical_pos (mul x y) /\
   (1 - epsilon) * (SF2Q x * SF2Q y) <= SF2Q (mul x y) /\
   SF2Q (mul x y) <= (1 + epsilon) * (SF2Q x * SF2Q y)).
Proof.
  intros -> -> Hx Hy Hc.
  destruct (SFmul_rel mx my ex ey Hc) as [Hinf|(mz & ez & Hz & Hlo & Hhi & _ & Hcan)].
  - left. exact Hinf.
  - right.
    change (mul (S754_finite false mx ex) (S754_finite false my ey))
      with (SFmul prec emax (S754_finite false mx ex) (S754_finite false my ey)).
    rewrite Hz. split; [|split; assumption].
    exists mz, ez. split; [reflexivity|].
    apply Hcan, mul_shift_nonneg; assumption.
Qed.

Lemma mul_whole_r (x y : float) :
  canonical_pos x -> canonical_pos y -> whole y ->
  mul x y = S754_infinity false \/
  (canonical_pos (mul x y) /\
   (1 - epsilon) * (SF2Q x * SF2Q y) <= SF2Q (mul x y) /\
   SF2Q (mul x y) <= (1 + epsilon) * (SF2Q x * SF2Q y)).
Proof.
  intros (mx & ex & Ex & Hx) (my & ey & Ey & Hy) (my' & ey' & Ey' & Hw).
  rewrite Ey in Ey'. injection Ey' as <- <-.
  apply (mul_close x y mx my ex ey Ex Ey Hx Hy).
  apply integral_mul_cond; [|exact Hw].
  apply canonical_inv in Hx. tauto.
Qed.

Lemma mul_whole_l (x y : float) :
  canonical_pos x -> whole x -> canonical_pos y ->
  mul x y = S754_infinity false \/
  (canonical_pos (mul x y) /\
   (1 - epsilon) * (SF2Q x * SF2Q y) <= SF2Q (mul x y) /\
   SF2Q (mul x y) <= (1 + epsilon) * (SF2Q x * SF2Q y)).
Proof.
  intros (mx & ex & Ex & Hx) (mx' & ex' & Ex' & Hw) (my & ey & Ey & Hy).
  rewrite Ex in Ex'. injection Ex' as <- <-.
  apply (mul_close x y mx my ex ey Ex Ey Hx Hy).
  rewrite (Pos.mul_comm mx my), (Z.add_comm ex ey).
  apply integral_mul_cond; [|exact Hw].
  apply canonical_inv in Hy. tauto.
Qed.

Lemma mul_range (x y : float) :
  canonical_pos x -> canonical_pos y ->
  2 ^ (-1023) <= SF2Q x * SF2Q y ->
  mul x y = S754_infinity false \/
  (canonical_pos (mul x y) /\
   (1 - epsilon) * (SF2Q x * SF2Q y) <= SF2Q (mul x y) /\
   SF2Q (mul x y) <= (1 + epsilon) * (SF2Q x * SF2Q y)).
Proof.
  intros (mx & ex & Ex & Hx) (my & ey & Ey & Hy) Hr.
  apply (mul_close x y mx my ex ey Ex Ey Hx Hy).
  apply range_cond; [lia|].
  apply Q_range; [lia|].
  rewrite Ex, Ey, !SF2Q_finite in Hr.
  rewrite Pos2Z.inj_mul, inject_Z_mult, pow2_add.
  setoid_replace (inject_Z (Z.pos mx) * inject_Z (Z.pos my) * (2 ^ ex * 2 ^ ey))
    with (inject_Z (Z.pos mx) * 2 ^ ex * (inject_Z (Z.pos my) * 2 ^ ey)) by ring.
  exact Hr.
Qed.

Lemma mul_normal (x y : float) :
  canonical_pos x -> canonical_pos y ->
  min_normal <= SF2Q (mul x y) ->
  canonical_pos (mul x y) /\
  (1 - epsilon) * (SF2Q x * SF2Q y) <= SF2Q (mul x y) /\
  SF2Q (mul x y) <= (1 + epsilon) * (SF2Q x * SF2Q y).
Proof.
  intros (mx & ex & Ex & Hx) (my & ey & Ey & Hy) Hn.
  assert (Hmin : 0 < min_normal) by apply pow2_pos.
  destruct (mul_close x y mx my ex ey Ex Ey Hx Hy) as [Hinf|H].
  - apply range_cond; [lia|].
    apply normal_result_range; [lia|].
    rewrite Ex, Ey in Hn. exact Hn.
  - rewrite Hinf in Hn. exfalso. apply (Qlt_not_le _ _ Hmin Hn).
  - exact H.
Qed.

(** [<] on canonical positive floats is [<] on their values. *)
Lemma ltb_canonical (x y : float) :
  canonical_pos x -> canonical_pos y -> SF2Q x < SF2Q y -> ltb x y = true.
Proof.
  intros (m1 & e1 & -> & H1) (m2 & e2 & -> & H2) Hlt.
  rewrite !SF2Q_finite in Hlt.
  apply canonical_inv in H1 as (Hm1 & Hd1 & Hn1).
  apply canonical_inv in H2 as (Hm2 & Hd2 & Hn2).
  simpl ltb. unfold SFltb, SFcompare.
  destruct (Z.compare_spec e1 e2) as [E|E|E].
  - subst e2. apply Qmult_lt_r in Hlt; [|apply pow2_pos].
    rewrite <- Zlt_Qlt in Hlt.
    assert (Hc : (m1 ?= m2)%positive = Lt) by (apply Pos.compare_lt_iff; lia).
    rewrite Pos.compare_cont_spec, Hc. reflexivity.
  - reflexivity.
  - exfalso.
    assert (Hd : Zdigits2 (Z.pos m1) = 53%Z)
      by (unfold emin, prec, emax in *; lia).
    pose proof (Zdigits2_bounds (Z.pos m1) ltac:(lia)) as [Hlo1 _].
    pose proof (Zdigits2_bounds (Z.pos m2) ltac:(lia)) as [_ Hhi2].
    assert (Hhi : (Z.pos m2 < 2 ^ 53)%Z).
    { assert ((2 ^ Zdigits2 (Z.pos m2) <= 2 ^ 53)%Z)
        by (apply Z.pow_le_mono_r; lia). lia. }
    rewrite Hd in Hlo1. change (53 - 1)%Z with 52%Z in Hlo1.
    assert (He : 2 * 2 ^ e2 <= 2 ^ e1).
    { change 2 with (2 ^ 1) at 1. rewrite <- pow2_add. apply pow2_le. lia. }
    rewrite Zle_Qle in Hlo1. rewrite Zlt_Qlt in Hhi.
    change (inject_Z (2 ^ 52)) with (4503599627370496 # 1) in Hlo1.
    change (inject_Z (2 ^ 53)) with (9007199254740992 # 1) in Hhi.
    pose proof (pow2_pos e2) as Hp2.
    generalize dependent (2 ^ e1). generalize dependent (2 ^ e2).
    generalize dependent (inject_Z (Z.pos m1)).
    generalize dependent (inject_Z (Z.pos m2)).
    intros. nra.
Qed.

Lemma min_normal_half : min_normal == 2 * 2 ^ (-1023).
Proof.
  unfold min_normal. change (-1022)%Z with (1 + -1023)%Z.
  rewrite pow2_add. reflexivity.
Qed.

Lemma mul_finite_inv (x y : float) :
  is_finite (mul x y) = true -> is_finite x = true /\ is_finite y = true.
Proof.
  destruct x as [sx|sx| |sx mx ex], y as [sy|sy| |sy my ey]; intros H;
    try (split; reflexivity); discriminate H.
Qed.

(** An input the guard lets through is positive, [+inf] or NaN; a finite
    one is a positive float. *)
Lemma positive_input (x : float) :
  valid_binary prec emax x = true -> leb x (of_Z 0) = false ->
  is_finite x = true -> canonical_pos x.
Proof.
  intros Hv Hl Hf.
  apply not_le0_inv in Hl as [->|[->|(m & e & ->)]]; try discriminate.
  exists m, e. split; [reflexivity|].
  simpl in Hv. unfold bounded in Hv. apply andb_true_iff in Hv as [Hc _].
  exact Hc.
Qed.

Lemma mul_inf_r (x : float) :
  canonical_pos x -> @mul float _ x (S754_infinity false) = S754_infinity false.
Proof. intros (m & e & -> & _). reflexivity. Qed.

Lemma mul_inf_l (y : float) :
  canonical_pos y -> @mul float _ (S754_infinity false) y = S754_infinity false.
Proof. intros (m & e & -> & _). reflexivity. Qed.

(** [contracts * (stop * r)]: two roundings. *)
Lemma count_times_target (C s R : float) :
  canonical_pos C -> whole C -> canonical_pos s -> canonical_pos R -> whole R ->
  mul C (mul s R) = S754_infinity false \/
  (canonical_pos (mul C (mul s R)) /\
   (1 - epsilon) * ((1 - epsilon) * (SF2Q C * (SF2Q s * SF2Q R)))
   <= SF2Q (mul C (mul s R)) /\
   SF2Q (mul C (mul s R))
   <= (1 + epsilon) * ((1 + epsilon) * (SF2Q C * (SF2Q s * SF2Q R)))).
Proof.
  intros HC HCw Hs HR HRw.
  destruct (mul_whole_r s R Hs HR HRw) as [Hinf|(Ht & Hlo & Hhi)].
  { left. rewrite Hinf. now apply mul_inf_r. }
  destruct (mul_whole_l C (mul s R) HC HCw Ht) as [Hinf|(Hy & Hlo2 & Hhi2)].
  { left. exact Hinf. }
  right. split; [exact Hy|].
  pose proof (canonical_pos_pos C HC) as Hc0.
  unfold epsilon in *.
  set (y := SF2Q (mul C (mul s R))) in *.
  set (t := SF2Q (mul s R)) in *.
  set (X := SF2Q s * SF2Q R) in *.
  set (c := SF2Q C) in *.
  clearbody y t X c.
  assert (H1 : c * ((1 - (1 # 4503599627370496)) * X) <= c * t)
    by (apply Qmult_le_l; assumption).
  assert (H2 : c * t <= c * ((1 + (1 # 4503599627370496)) * X))
    by (apply Qmult_le_l; assumption).
  split; lra.
Qed.

(** The multiples of the table are converted exactly. *)
Lemma multiple_converts (r : Z) :
  (1 <= r <= 2 ^ 49)%Z ->
  fits r = true /\ canonical_pos (of_Z r) /\ whole (of_Z r) /\
  SF2Q (of_Z r) == inject_Z r.
Proof.
  intros Hr.
  assert (H53 : (0 < r < 2 ^ 53)%Z).
  { assert ((2 ^ 49 < 2 ^ 53)%Z) by reflexivity. lia. }
  destruct (float_of_Z_exact r H53) as [Hf Hv].
  destruct (float_of_Z_pos r ltac:(lia) Hf) as [Hc Hw].
  auto.
Qed.

(** A whole positive float is at least 1. *)
Lemma whole_ge_1 (x : float) : whole x -> 1 <= SF2Q x.
Proof.
  intros (m & e & -> & [He|[q Hq]]); rewrite SF2Q_finite.
  - assert (H1 : 1 <= inject_Z (Z.pos m)).
    { change 1 with (inject_Z 1). rewrite <- Zle_Qle. lia. }
    assert (H2 : 1 <= 2 ^ e).
    { change 1 with (2 ^ 0). apply pow2_le. exact He. }
    generalize dependent (2 ^ e). generalize dependent (inject_Z (Z.pos m)).
    intros. nra.
  - destruct (Z_le_gt_dec 0 e) as [He|He].
    + assert (H1 : 1 <= inject_Z (Z.pos m)).
      { change 1 with (inject_Z 1). rewrite <- Zle_Qle. lia. }
      assert (H2 : 1 <= 2 ^ e).
      { change 1 with (2 ^ 0). apply pow2_le. exact He. }
      generalize dependent (2 ^ e). generalize dependent (inject_Z (Z.pos m)).
      intros. nra.
    + assert (Hp : (0 < 2 ^ (- e))%Z) by (apply Z.pow_pos_nonneg; lia).
      assert (Hq0 : (1 <= q)%Z) by nia.
      rewrite Hq, inject_Z_mult, pow2_Z, <- Qmult_assoc, <- pow2_add by lia.
      replace (- e + e)%Z with 0%Z by lia. change (2 ^ 0) with 1.
      rewrite Qmult_1_r. change 1 with (inject_Z 1). rewrite <- Zle_Qle. lia.
Qed.

(** A value in the normal range belongs to a finite float. *)
Lemma normal_is_finite (x : float) : min_normal <= SF2Q x -> is_finite x = true.
Proof.
  assert (Hmin : 0 < min_normal) by apply pow2_pos.
  destruct x; intros H; try reflexivity;
    exfalso; apply (Qlt_not_le _ _ Hmin H).
Qed.

End Products.

(** ** Facts about exact arithmetic *)

Section ExactArithmetic.

Import Exact.
Local Open Scope Q_scope.

Lemma exact_sizer (t s p : Q) :
  0 < s -> 0 < p ->
  calculate_position_size t s p = Ok (Qfloor (t / (s * p)), s * p).
Proof.
  intros Hs Hp. rewrite sizer_normal; simpl.
  - unfold truediv. simpl.
    destruct (Qeq_bool (s * p) 0) eqn:E; [|reflexivity].
    apply Qeq_bool_iff in E. exfalso.
    apply (Qlt_irrefl 0). rewrite <- E at 2. now apply Qmult_lt_0_compat.
  - destruct (Qle_bool s (inject_Z 0)) eqn:E; [|reflexivity].
    apply Qle_bool_iff in E. exfalso. exact (Qlt_not_le _ _ Hs E).
  - destruct (Qle_bool p (inject_Z 0)) eqn:E; [|reflexivity].
    apply Qle_bool_iff in E. exfalso. exact (Qlt_not_le _ _ Hp E).
Qed.

Lemma exact_sizer_guard (t s p : Q) :
  s <= 0 \/ p <= 0 -> calculate_position_size t s p = Ok (0%Z, 0).
Proof.
  intros H. change 0 with (of_Z (F:=Q) 0%Z). apply sizer_degenerate. simpl.
  destruct H as [H|H]; [left|right]; now apply Qle_bool_iff.
Qed.

Lemma floor_div_nonneg (t r : Q) :
  0 < r -> 0 <= t -> (0 <= Qfloor (t / r))%Z.
Proof.
  intros Hr Ht. change 0%Z with (Qfloor 0). apply Qfloor_resp_le.
  apply Qle_shift_div_l; [exact Hr | now rewrite Qmult_0_l].
Qed.

Lemma floor_div_neg (t r : Q) :
  0 < r -> t < 0 -> (Qfloor (t / r) < 0)%Z.
Proof.
  intros Hr Ht.
  assert (H : t / r < 0).
  { apply Qlt_shift_div_r; [exact Hr | now rewrite Qmult_0_l]. }
  pose proof (Qfloor_le (t / r)) as Hf.
  rewrite Zlt_Qlt. eapply Qle_lt_trans; [exact Hf | exact H].
Qed.

End ExactArithmetic.

(** ** The position sizer *)

Section PositionSizer.

Import Float64 Exact Widgets.
Import String.StringSyntax.
Local Open Scope string_scope.

(** C1 (no over-risk) is what the comment of line 29 promises ("We use
    math.floor to ensure we never exceed the dollar risk limit"), and the
    code breaks it at an input the widgets allow.  With a dollar risk of
    187.0, a stop of 1.1 points and the MNQ point value 2.0, the quotient
    187.0 / 2.2 rounds up to the integer 85.0, the sizer returns 85
    contracts, and [actual_risk = 85 * 2.2] evaluates to 187.00000000000003
    (6579477580611585 * 2^-45), above the 187.0 (6579477580611584 * 2^-45)
    that was allowed; the exact product of the three inputs' values exceeds
    it as well.  The run of the script on these inputs shows the 85
    contracts and the exceeded risk. *)
Lemma over_risk_behind_widgets :
  let total := float_of_Z 187 in
  let stop := decimal 11 10 in
  (ltb (of_Z 0) stop = true /\ ltb (of_Z 0) MNQ = true /\
   calculate_position_size total stop MNQ = Ok (85, decimal 22 10) /\
   actual_risk 85 (decimal 22 10)
   = Ok (S754_finite false 6579477580611585 (-45)) /\
   total = S754_finite false 6579477580611584 (-45) /\
   ltb total (S754_finite false 6579477580611585 (-45)) = true /\
   (SF2Q total < inject_Z 85 * SF2Q stop * SF2Q MNQ)%Q) /\
  (let i := {| account_balance := float_of_Z 25000; point_value := MNQ;
               risk_dollars := total; stop_loss_points := stop |} in
   from_widgets i /\
   exists d,
     app i = Ok d /\ contracts d = 85 /\
     shown_actual_risk d = S754_finite false 6579477580611585 (-45) /\
     ltb (risk_dollars i) (shown_actual_risk d) = true).
Proof.
  intros total stop. split.
  - vm_compute. repeat split; reflexivity.
  - intros i. split.
    + split; [reflexivity|]. split; [|split; reflexivity].
      exists "MNQ (Micro Nasdaq 100)". split; [right; left|]; reflexivity.
    + eexists. split; [vm_compute; reflexivity|].
      split; [reflexivity|]. split; reflexivity.
Qed.

(** C2, as stated, fails: the sizer has no lower clamp.  A dollar risk of
    -100.0 with a stop of 12.0 points on MES (5.0) gives
    [floor(-100.0 / 60.0) = -2] contracts, where [max(0, -2)] is 0. *)
Lemma no_clamp_counterexample :
  let total := float_of_Z (-100) in
  let stop := float_of_Z 12 in
  ltb (of_Z 0) stop = true /\ ltb (of_Z 0) MES = true /\
  ltb total (of_Z 0) = true /\
  calculate_position_size total stop MES = Ok (-2, float_of_Z 60) /\
  Z.max 0 (-2) = 0.
Proof. vm_compute. repeat split; reflexivity. Qed.

(** C2 (contract count), amended.  For a positive stop and point value the
    sizer returns [floor(total / (stop * point_value))], without a clamp.
    This is [max(0, floor(...))] whenever [total >= 0]; for a negative total
    the count is not raised to 0: it is negative on exact numbers, and [<= 0]
    on binary64 (0 only when the quotient underflows to -0.0). *)
Theorem unclamped_floor :
  (forall total stop pv : Q,
     (0 < stop)%Q -> (0 < pv)%Q ->
     exists n,
       calculate_position_size total stop pv = Ok (n, (stop * pv)%Q) /\
       n = Qfloor (total / (stop * pv)) /\
       ((0 <= total)%Q -> n = Z.max 0 n) /\
       ((total < 0)%Q -> n < 0)) /\
  (forall (total stop pv : float) n rpc,
     ltb (of_Z 0) stop = true -> ltb (of_Z 0) pv = true ->
     calculate_position_size total stop pv = Ok (n, rpc) ->
     rpc = mul stop pv /\
     floor (div total rpc) = Ok n /\
     n = Qfloor (SF2Q (div total rpc)) /\
     (leb (of_Z 0) total = true -> n = Z.max 0 n) /\
     (ltb total (of_Z 0) = true -> n <= 0)).
Proof.
  split.
  - intros total stop pv Hs Hp. exists (Qfloor (total / (stop * pv))).
    assert (Hr : (0 < stop * pv)%Q) by now apply Qmult_lt_0_compat.
    split; [now apply exact_sizer|]. split; [reflexivity|]. split.
    + intros Ht. pose proof (floor_div_nonneg total _ Hr Ht). lia.
    + intros Ht. now apply floor_div_neg.
  - intros total stop pv n rpc Hs Hp H.
    apply sizer_Ok in H as [(_ & _ & [H|H]) | (Hs' & Hp' & -> & Hz & Hf)].
    + now rewrite (gt0_not_le0 _ Hs) in H.
    + now rewrite (gt0_not_le0 _ Hp) in H.
    + assert (Hr : signed false (mul stop pv)).
      { apply (SFmul_signed false false); now apply not_le0_signed. }
      split; [reflexivity|]. split; [exact Hf|].
      split; [now apply floor_Ok in Hf|]. split.
      * intros Ht. apply ge0_signed in Ht.
        pose proof (SFdiv_signed false false _ _ Hz Ht Hr) as Hq.
        pose proof (floor_signed_false _ _ Hf Hq). lia.
      * intros Ht. apply lt0_signed in Ht.
        pose proof (SFdiv_signed true false _ _ Hz Ht Hr) as Hq.
        exact (floor_signed_true _ _ Hf Hq).
Qed.

(** C3 (maximality) follows from the formula of the docstring,
    "Contracts = Floor(Total Risk / (Stop Points * Point Value))", and the
    code misses that formula at an input the widgets allow.  With a dollar
    risk of 147.0 and a stop of 0.49 points on MES (5.0),
    [risk_per_contract] is 2.45 and the quotient 147.0 / 2.45 rounds to
    59.99999999999999, so the sizer returns 59 contracts; yet 60 contracts
    cost [60 * 0.49 * 5.0 = 147.0], which is not above the dollar risk,
    whether the product is rounded or taken exactly on the inputs' values.
    The run of the script on these inputs shows the 59 contracts. *)
Lemma undersized_behind_widgets :
  let total := float_of_Z 147 in
  let stop := decimal 49 100 in
  (leb (of_Z 0) total = true /\
   ltb (of_Z 0) stop = true /\ ltb (of_Z 0) MES = true /\
   calculate_position_size total stop MES = Ok (59, decimal 245 100) /\
   mul (mul (of_Z (59 + 1)) stop) MES = total /\
   mul (of_Z (59 + 1)) (decimal 245 100) = total /\
   ltb total (mul (mul (of_Z (59 + 1)) stop) MES) = false /\
   ~ (SF2Q total < inject_Z (59 + 1) * SF2Q stop * SF2Q MES)%Q) /\
  (let i := {| account_balance := float_of_Z 25000; point_value := MES;
               risk_dollars := total; stop_loss_points := stop |} in
   from_widgets i /\
   exists d,
     app i = Ok d /\ contracts d = 59 /\
     mul (of_Z (contracts d + 1)) (risk_per_contract d) = risk_dollars i).
Proof.
  intros total stop. split.
  - vm_compute. repeat split; try reflexivity. discriminate.
  - intros i. split.
    + split; [reflexivity|]. split; [|split; reflexivity].
      exists "MES (Micro S&P 500)". split; [left|]; reflexivity.
    + eexists. split; [vm_compute; reflexivity|].
      split; reflexivity.
Qed.

End PositionSizer.

(** ** The profit table *)

Section ProfitTable.

Import Float64 Widgets.

(** C6, as stated, fails on binary64 in three ways.  Overflow: a dollar risk
    of 2^1023 with a stop of 2^1022 points on MNQ (2.0) gives 1 contract, and
    the profits at the multiples 2 and 3 are both [+inf].  Underflow: a
    dollar risk and a point value of 2^-1074 with a stop of 0.75 points give
    1 contract, and the profits at the multiples 2 and 3 both round to
    2 * 2^-1074.  Multiples beyond 2^53: [2^53] and [2^53 + 1] are converted
    to the same float, so their profits are equal. *)
Lemma monotonicity_binary64_counterexample :
  (let total := float_of_Z (2 ^ 1023) in
   let stop := float_of_Z (2 ^ 1022) in
   ltb (of_Z 0) stop = true /\ ltb (of_Z 0) MNQ = true /\
   calculate_position_size total stop MNQ = Ok (1, total) /\
   map potential_profit (map (scenario_row 1 stop MNQ) [1; 2; 3])
   = [total; S754_infinity false; S754_infinity false] /\
   project 1 stop MNQ [1; 2; 3] = Ok (map (scenario_row 1 stop MNQ) [1; 2; 3]) /\
   ltb (potential_profit (scenario_row 1 stop MNQ 2))
       (potential_profit (scenario_row 1 stop MNQ 3)) = false) /\
  (let tiny := S754_finite false 1 (-1074) in
   let stop := decimal 3 4 in
   valid_binary prec emax tiny = true /\ valid_binary prec emax stop = true /\
   ltb (of_Z 0) stop = true /\ ltb (of_Z 0) tiny = true /\
   calculate_position_size tiny stop tiny = Ok (1, tiny) /\
   map potential_profit (map (scenario_row 1 stop tiny) [1; 2; 3])
   = [tiny; S754_finite false 2 (-1074); S754_finite false 2 (-1074)] /\
   project 1 stop tiny [1; 2; 3] = Ok (map (scenario_row 1 stop tiny) [1; 2; 3]) /\
   ltb (potential_profit (scenario_row 1 stop tiny 2))
       (potential_profit (scenario_row 1 stop tiny 3)) = false) /\
  (let one := float_of_Z 1 in
   calculate_position_size one one one = Ok (1, one) /\
   project 1 one one [2 ^ 53; 2 ^ 53 + 1]
   = Ok (map (scenario_row 1 one one) [2 ^ 53; 2 ^ 53 + 1]) /\
   map potential_profit (map (scenario_row 1 one one) [2 ^ 53; 2 ^ 53 + 1])
   = [float_of_Z (2 ^ 53); float_of_Z (2 ^ 53)] /\
   ltb (potential_profit (scenario_row 1 one one (2 ^ 53)))
       (potential_profit (scenario_row 1 one one (2 ^ 53 + 1))) = false).
Proof.
  split; [|split].
  - vm_compute. repeat split; reflexivity.
  - vm_compute. repeat split; reflexivity.
  - vm_compute. repeat split; reflexivity.
Qed.

Local Open Scope Q_scope.

(** C6 (scenario monotonicity), amended: on binary64, as the script
    computes it.  For a positive contract count that converts to a float,
    a stop and a point value that are binary64 numbers and pass the guard
    of the sizer, and two multiples [1 <= r1 < r2 <= 2^49], the loop body
    returns both rows, and the [potential_profit] at [r1] is strictly below
    the one at [r2], for Python's [<] and as exact values, provided the
    profit at [r1] has not underflowed (it is at least 2^-1022) and the one
    at [r2] has not overflowed (it is finite).  The three roundings of
    [(contracts * (stop * r)) * point_value] lose less than three parts in
    2^52, which cannot bridge the step from [r1] to [r1 + 1]. *)
Theorem profit_strictly_increasing
    (contracts : Z) (stop pv : float) (r1 r2 : Z) :
  valid_binary prec emax stop = true -> valid_binary prec emax pv = true ->
  leb stop (of_Z 0) = false -> leb pv (of_Z 0) = false ->
  (0 < contracts)%Z -> fits contracts = true ->
  (1 <= r1 < r2)%Z -> (r2 <= 2 ^ 49)%Z ->
  let row1 := scenario_row contracts stop pv r1 in
  let row2 := scenario_row contracts stop pv r2 in
  min_normal <= SF2Q (potential_profit row1) ->
  is_finite (potential_profit row2) = true ->
  scenario contracts stop pv r1 = Ok row1 /\
  scenario contracts stop pv r2 = Ok row2 /\
  ltb (potential_profit row1) (potential_profit row2) = true /\
  SF2Q (potential_profit row1) < SF2Q (potential_profit row2).
Proof.
  intros Hvs Hvp Hgs Hgp Hc Hfc Hr Hr2 row1 row2 Hlow Hfin.
  destruct (multiple_converts r1 ltac:(lia)) as (Hf1 & HR1 & HW1 & HV1).
  destruct (multiple_converts r2 ltac:(lia)) as (Hf2 & HR2 & HW2 & HV2).
  destruct (float_of_Z_pos contracts Hc Hfc) as [HC HCw].
  split; [now apply scenario_fits|]. split; [now apply scenario_fits|].
  subst row1 row2. cbn [potential_profit scenario_row] in *.
  change (@of_Z float float_Number) with float_of_Z in *.
  (* the inputs are finite, hence positive floats *)
  apply mul_finite_inv in Hfin as Hfin'. destruct Hfin' as [Hfy Hfp].
  apply mul_finite_inv in Hfy as [_ Hft].
  apply mul_finite_inv in Hft as [Hfs _].
  pose proof (positive_input stop Hvs Hgs Hfs) as Hs.
  pose proof (positive_input pv Hvp Hgp Hfp) as Hp.
  assert (Hmin : 0 < min_normal) by apply pow2_pos.
  (* the row at [r1] *)
  destruct (count_times_target _ stop _ HC HCw Hs HR1 HW1)
    as [Hinf|(Hy1 & Hlo1 & Hhi1)].
  { exfalso. rewrite Hinf, (mul_inf_l pv Hp) in Hlow.
    apply (Qlt_not_le _ _ Hmin Hlow). }
  destruct (mul_normal _ pv Hy1 Hp Hlow) as (HP1 & HPlo1 & HPhi1).
  (* the row at [r2] *)
  destruct (count_times_target _ stop _ HC HCw Hs HR2 HW2)
    as [Hinf|(Hy2 & Hlo2 & Hhi2)].
  { exfalso. rewrite Hinf, (mul_inf_l pv Hp) in Hfin. discriminate Hfin. }
  pose proof (canonical_pos_pos _ HC) as Hc0.
  pose proof (canonical_pos_pos _ Hs) as Hs0.
  pose proof (canonical_pos_pos _ Hp) as Hp0.
  pose proof (canonical_pos_pos _ Hy1) as Hy10.
  assert (Hr1Q : 1 <= inject_Z r1).
  { change 1 with (inject_Z 1). rewrite <- Zle_Qle. lia. }
  assert (Hr12Q : inject_Z r1 + 1 <= inject_Z r2).
  { change 1 with (inject_Z 1). rewrite <- inject_Z_plus, <- Zle_Qle. lia. }
  assert (Hr2Q : inject_Z r2 <= 562949953421312).
  { change 562949953421312 with (inject_Z (2 ^ 49)). rewrite <- Zle_Qle. lia. }
  rewrite HV1 in Hlo1, Hhi1. rewrite HV2 in Hlo2, Hhi2.
  pose proof min_normal_half as Hhalf.
  unfold epsilon in *.
  set (P1 := SF2Q (mul (mul (float_of_Z contracts) (mul stop (float_of_Z r1))) pv)) in *.
  set (P2 := SF2Q (mul (mul (float_of_Z contracts) (mul stop (float_of_Z r2))) pv)) in *.
  set (y1 := SF2Q (mul (float_of_Z contracts) (mul stop (float_of_Z r1)))) in *.
  set (y2 := SF2Q (mul (float_of_Z contracts) (mul stop (float_of_Z r2)))) in *.
  set (c := SF2Q (float_of_Z contracts)) in *.
  set (s := SF2Q stop) in *. set (p := SF2Q pv) in *.
  set (q1 := inject_Z r1) in *. set (q2 := inject_Z r2) in *.
  set (T := 2 ^ (-1023)) in *.
  assert (Hcs : 0 < c * s) by (apply Qmult_lt_0_compat; assumption).
  assert (Hy12 : y1 <= y2).
  { setoid_replace (c * (s * q1)) with (c * s * q1) in Hhi1 by ring.
    setoid_replace (c * (s * q2)) with (c * s * q2) in Hlo2 by ring.
    assert (c * s * (q1 + 1) <= c * s * q2)
      by (apply Qmult_le_l; assumption).
    assert (0 <= c * s * q1).
    { apply Qmult_le_0_compat; [apply Qlt_le_weak, Hcs|lra]. }
    clearbody y1 y2 c s q1 q2. set (K := c * s) in *. clearbody K.
    set (k1 := K * q1) in *. set (k2 := K * q2) in *.
    assert (K * (q1 + 1) == k1 + K) by (subst k1; ring).
    assert (k1 <= 562949953421312 * K).
    { subst k1. rewrite (Qmult_comm 562949953421312 K).
      apply Qmult_le_l; [exact Hcs|lra]. }
    clearbody k1 k2. lra. }
  assert (Hrange : T <= y2 * p).
  { assert (y1 * p <= y2 * p)
      by (apply Qmult_le_compat_r; [exact Hy12|apply Qlt_le_weak, Hp0]).
    clearbody P1 y1 y2 p T. lra. }
  destruct (mul_range _ pv Hy2 Hp Hrange) as [Hinf|(HP2 & HPlo2 & HPhi2)].
  { exfalso. fold P2 in Hfin. rewrite Hinf in Hfin. discriminate Hfin. }
  assert (Hlt : P1 < P2).
  { fold P2 in HPlo2. fold y2 in HPlo2. fold p in HPlo2.
    unfold epsilon in HPlo2.
    assert (Hcsp : 0 < c * s * p) by (apply Qmult_lt_0_compat; assumption).
    assert (Hu1 : y1 * p
                  <= (1 + (1 # 4503599627370496))
                     * ((1 + (1 # 4503599627370496)) * (c * (s * q1))) * p)
      by (apply Qmult_le_compat_r; [exact Hhi1|apply Qlt_le_weak, Hp0]).
    assert (Hl2 : (1 - (1 # 4503599627370496))
                  * ((1 - (1 # 4503599627370496)) * (c * (s * q2))) * p
                  <= y2 * p)
      by (apply Qmult_le_compat_r; [exact Hlo2|apply Qlt_le_weak, Hp0]).
    set (K := c * s * p) in *.
    assert (E1 : (1 + (1 # 4503599627370496))
                 * ((1 + (1 # 4503599627370496)) * (c * (s * q1))) * p
                 == (1 + (1 # 4503599627370496))
                    * ((1 + (1 # 4503599627370496)) * (K * q1)))
      by (subst K; ring).
    assert (E2 : (1 - (1 # 4503599627370496))
                 * ((1 - (1 # 4503599627370496)) * (c * (s * q2))) * p
                 == (1 - (1 # 4503599627370496))
                    * ((1 - (1 # 4503599627370496)) * (K * q2)))
      by (subst K; ring).
    rewrite E1 in Hu1. rewrite E2 in Hl2.
    assert (K * (q1 + 1) <= K * q2)
      by (apply Qmult_le_l; assumption).
    assert (EK : K * (q1 + 1) == K * q1 + K) by ring.
    assert (K * q1 <= 562949953421312 * K).
    { rewrite (Qmult_comm 562949953421312 K).
      apply Qmult_le_l; [exact Hcsp|lra]. }
    assert (0 <= K * q1).
    { apply Qmult_le_0_compat; [apply Qlt_le_weak, Hcsp|lra]. }
    set (k1 := K * q1) in *. set (k2 := K * q2) in *.
    set (ym1 := y1 * p) in *. set (ym2 := y2 * p) in *.
    clearbody k1 k2 ym1 ym2 K P1 P2. clear E1 E2.
    lra. }
  split; [|exact Hlt].
  apply ltb_canonical; assumption.
Qed.

Local Close Scope Q_scope.

(** C9, as stated, fails on binary64.  With a dollar risk of 12.0 and a stop
    of 0.4 points on MES (5.0) the script shows 6 contracts and an actual
    risk [6 * (0.4 * 5.0) = 12.0], while the 1:1 row of its table holds
    [(6 * (0.4 * 1)) * 5.0 = 12.000000000000002].  Below the normal range
    the two are further apart: with a dollar risk of 4 * 2^-1074, a stop of
    0.75 points and a point value of 2^-1074, the risk per contract rounds to
    2^-1074, the script shows 4 contracts and an actual risk of 4 * 2^-1074,
    and the 1:1 row holds 3 * 2^-1074. *)
Lemma one_to_one_binary64_counterexample :
  (let i := {| account_balance := float_of_Z 25000;
               point_value := MES;
               risk_dollars := float_of_Z 12;
               stop_loss_points := decimal 4 10 |} in
   exists d row rest,
     app i = Ok d /\
     contracts d = 6 /\
     scenarios d = Some (row :: rest) /\
     r_multiple row = 1 /\
     shown_actual_risk d = S754_finite false 6755399441055744 (-49) /\
     potential_profit row = S754_finite false 6755399441055745 (-49) /\
     SFeqb (potential_profit row) (shown_actual_risk d) = false) /\
  (let tiny := S754_finite false 1 (-1074) in
   let i := {| account_balance := float_of_Z 25000;
               point_value := tiny;
               risk_dollars := S754_finite false 4 (-1074);
               stop_loss_points := decimal 3 4 |} in
   exists d row rest,
     app i = Ok d /\
     contracts d = 4 /\
     risk_per_contract d = tiny /\
     scenarios d = Some (row :: rest) /\
     r_multiple row = 1 /\
     shown_actual_risk d = S754_finite false 4 (-1074) /\
     potential_profit row = S754_finite false 3 (-1074)).
Proof.
  split.
  - intros i. do 3 eexists.
    split; [vm_compute; reflexivity|].
    split; [reflexivity|]. split; [reflexivity|]. split; [reflexivity|].
    split; [reflexivity|]. split; reflexivity.
  - intros tiny i. do 3 eexists.
    split; [vm_compute; reflexivity|].
    split; [reflexivity|]. split; [reflexivity|]. split; [reflexivity|].
    split; [reflexivity|]. split; reflexivity.
Qed.

Local Open Scope Q_scope.

(** C9 (the 1:1 row and the actual risk), amended: on binary64, as the
    script computes them.  In a completed run on a stop and a point value
    that are binary64 numbers, with a positive contract count and a risk per
    contract in the normal range (at least 2^-1022), the first row of the
    table is the multiple 1, and unless the actual risk or the profit of that
    row has overflowed to [+inf], the two differ by at most 2^-49 of the
    actual risk.  They are the roundings
    [(contracts * (stop * 1)) * point_value] and
    [contracts * (stop * point_value)] of one exact product, and need not be
    equal. *)
Theorem one_to_one_is_actual_risk (i : Inputs float) (d : Display float) :
  valid_binary prec emax (stop_loss_points i) = true ->
  valid_binary prec emax (point_value i) = true ->
  app i = Ok d -> (0 < contracts d)%Z ->
  min_normal <= SF2Q (risk_per_contract d) ->
  exists row rest,
    scenarios d = Some (row :: rest) /\
    r_multiple row = 1%Z /\
    (shown_actual_risk d = S754_infinity false \/
     potential_profit row = S754_infinity false \/
     Qabs (SF2Q (potential_profit row) - SF2Q (shown_actual_risk d))
     <= (1 # 562949953421312) * SF2Q (shown_actual_risk d)).
Proof.
  intros Hvs Hvp Happ Hpos Hnorm.
  apply app_Ok in Happ as (Hsz & Hfits & Ha & _ & _ & Ht).
  apply Z.ltb_lt in Hpos as Hpos'. rewrite Hpos' in Ht.
  apply sizer_Ok in Hsz as [(H0 & _) | (Hgs & Hgp & Hr & _ & _)]; [lia|].
  do 2 eexists. split; [exact Ht|]. split; [reflexivity|].
  cbn [potential_profit scenario_row].
  rewrite Ha, Hr in *. clear Ha Hr Ht.
  set (n := contracts d) in *.
  set (s := stop_loss_points i) in *. set (p := point_value i) in *.
  change (@of_Z float float_Number) with float_of_Z in *.
  (* the inputs are positive floats *)
  apply normal_is_finite in Hnorm as Hfr.
  apply mul_finite_inv in Hfr as [Hfs Hfp].
  pose proof (positive_input s Hvs Hgs Hfs) as Hs.
  pose proof (positive_input p Hvp Hgp Hfp) as Hp.
  destruct (float_of_Z_pos n Hpos Hfits) as [HC HCw].
  destruct (multiple_converts 1 ltac:(split; [lia|discriminate]))
    as (_ & HR & HRw & HV).
  change (@of_Z float float_Number) with float_of_Z in *.
  (* the risk per contract and the actual risk *)
  destruct (mul_normal s p Hs Hp Hnorm) as (Hrpc & Hrlo & Hrhi).
  destruct (mul_whole_l _ _ HC HCw Hrpc) as [Hinf|(HA & HAlo & HAhi)].
  { left. exact Hinf. }
  right.
  (* the 1:1 row *)
  destruct (count_times_target _ s _ HC HCw Hs HR HRw)
    as [Hinf|(Hy & Hylo & Hyhi)].
  { left. rewrite Hinf. now apply mul_inf_l. }
  pose proof (whole_ge_1 _ HCw) as Hc1.
  pose proof (canonical_pos_pos _ Hs) as Hs0.
  pose proof (canonical_pos_pos _ Hp) as Hp0.
  pose proof min_normal_half as Hhalf.
  rewrite HV in Hylo, Hyhi.
  change (inject_Z 1) with 1 in Hylo, Hyhi.
  assert (Hsp0 : 0 < SF2Q s * SF2Q p) by (apply Qmult_lt_0_compat; assumption).
  assert (Hk : SF2Q s * SF2Q p <= SF2Q (float_of_Z n) * (SF2Q s * SF2Q p)).
  { rewrite <- (Qmult_1_l (SF2Q s * SF2Q p)) at 1.
    apply Qmult_le_compat_r; [exact Hc1|apply Qlt_le_weak, Hsp0]. }
  assert (Hyp_lo : (1 - epsilon) * ((1 - epsilon)
                     * (SF2Q (float_of_Z n) * (SF2Q s * 1))) * SF2Q p
                   <= SF2Q (mul (float_of_Z n) (mul s (float_of_Z 1))) * SF2Q p)
    by (apply Qmult_le_compat_r; [exact Hylo|apply Qlt_le_weak, Hp0]).
  assert (Hyp_hi : SF2Q (mul (float_of_Z n) (mul s (float_of_Z 1))) * SF2Q p
                   <= (1 + epsilon) * ((1 + epsilon)
                        * (SF2Q (float_of_Z n) * (SF2Q s * 1))) * SF2Q p)
    by (apply Qmult_le_compat_r; [exact Hyhi|apply Qlt_le_weak, Hp0]).
  assert (HcA_lo : SF2Q (float_of_Z n) * ((1 - epsilon) * (SF2Q s * SF2Q p))
                   <= SF2Q (float_of_Z n) * SF2Q (mul s p))
    by (apply Qmult_le_l; [lra|exact Hrlo]).
  assert (HcA_hi : SF2Q (float_of_Z n) * SF2Q (mul s p)
                   <= SF2Q (float_of_Z n) * ((1 + epsilon) * (SF2Q s * SF2Q p)))
    by (apply Qmult_le_l; [lra|exact Hrhi]).
  set (K := SF2Q (float_of_Z n) * (SF2Q s * SF2Q p)) in *.
  assert (E1 : (1 - epsilon) * ((1 - epsilon)
                 * (SF2Q (float_of_Z n) * (SF2Q s * 1))) * SF2Q p
               == (1 - epsilon) * ((1 - epsilon) * K)) by (subst K; ring).
  assert (E2 : (1 + epsilon) * ((1 + epsilon)
                 * (SF2Q (float_of_Z n) * (SF2Q s * 1))) * SF2Q p
               == (1 + epsilon) * ((1 + epsilon) * K)) by (subst K; ring).
  assert (E3 : SF2Q (float_of_Z n) * ((1 - epsilon) * (SF2Q s * SF2Q p))
               == (1 - epsilon) * K) by (subst K; ring).
  assert (E4 : SF2Q (float_of_Z n) * ((1 + epsilon) * (SF2Q s * SF2Q p))
               == (1 + epsilon) * K) by (subst K; ring).
  rewrite E1 in Hyp_lo. rewrite E2 in Hyp_hi.
  rewrite E3 in HcA_lo. rewrite E4 in HcA_hi.
  clear E1 E2 E3 E4.
  set (A := SF2Q (mul (float_of_Z n) (mul s p))) in *.
  set (rpc := SF2Q (mul s p)) in *.
  set (cr := SF2Q (float_of_Z n) * rpc) in *.
  set (yp := SF2Q (mul (float_of_Z n) (mul s (float_of_Z 1))) * SF2Q p) in *.
  set (sp := SF2Q s * SF2Q p) in *.
  set (T := 2 ^ (-1023)) in *.
  unfold epsilon in *.
  assert (Hrange : T <= yp).
  { clear - Hyp_lo Hk Hrhi Hnorm Hhalf Hsp0.
    clearbody yp K sp rpc T. lra. }
  destruct (mul_range _ p Hy Hp Hrange) as [Hinf|(_ & HPlo & HPhi)].
  { left. exact Hinf. }
  right. fold yp in HPlo, HPhi. unfold epsilon in HPlo, HPhi.
  set (P := SF2Q (mul (mul (float_of_Z n) (mul s (float_of_Z 1))) p)) in *.
  apply Qabs_Qle_condition.
  clear - HPlo HPhi Hyp_lo Hyp_hi HAlo HAhi HcA_lo HcA_hi Hk Hsp0.
  clearbody P A yp cr K sp.
  split; lra.
Qed.

Local Close Scope Q_scope.

End ProfitTable.

(** ** The advisory when no contract is affordable *)

Section ZeroContractsAdvisory.

Import Float64 Exact.

Lemma SFdiv_nan (x : float) : SFdiv prec emax x S754_nan = S754_nan.
Proof. destruct x; reflexivity. Qed.

(** The risk per contract of a completed sizing is [+0.0] (the guard), a
    positive finite float, or [+inf] (the product overflowed). *)
Lemma sizer_risk_per_contract (t s p : float) n rpc :
  calculate_position_size t s p = Ok (n, rpc) ->
  rpc = S754_zero false \/ rpc = S754_infinity false \/
  exists m e, rpc = S754_finite false m e.
Proof.
  intros H.
  apply sizer_Ok in H as [(_ & -> & _) | (Hs & Hp & -> & Hz & Hf)].
  { left. reflexivity. }
  assert (Hr : signed false (mul s p)).
  { apply (SFmul_signed false false); now apply not_le0_signed. }
  destruct (mul s p) as [sr|sr| |sr mr er].
  - discriminate.
  - simpl in Hr. subst sr. auto.
  - cbn [div float_Number] in Hf. rewrite SFdiv_nan in Hf. discriminate.
  - simpl in Hr. subst sr. eauto.
Qed.

(** C10, as stated, fails on binary64 when the risk per contract overflows.
    With a stop of 2^1023 points on MGC (10.0), [risk_per_contract] is
    [+inf], the quotient 300.0 / inf is 0.0 and the sizer returns 0
    contracts; [actual_risk = 0 * inf] and the percentage are NaN, not 0.
    The advisory is [ZeroContracts] all the same. *)
Lemma zero_contracts_binary64_counterexample :
  let i := {| account_balance := float_of_Z 25000;
              point_value := MGC;
              risk_dollars := float_of_Z 300;
              stop_loss_points := float_of_Z (2 ^ 1023) |} in
  ltb (of_Z 0) (account_balance i) = true /\
  calculate_position_size (risk_dollars i) (stop_loss_points i) (point_value i)
  = Ok (0, S754_infinity false) /\
  app i = Ok {| contracts := 0;
                risk_per_contract := S754_infinity false;
                shown_actual_risk := S754_nan;
                shown_risk_pct := S754_nan;
                advisory := ZeroContracts;
                scenarios := None |}.
Proof. vm_compute. repeat split; reflexivity. Qed.

(** C10 (zero contracts force [ZeroContracts]), amended.  With a positive
    account balance, a sizing of 0 contracts always completes the run with
    the advisory [ZeroContracts] and no profit table.  On exact numbers the
    actual risk and the percentage are 0.  On binary64 they are exactly
    [+0.0] unless [risk_per_contract] overflowed to [+inf], in which case
    both are NaN (which does not exceed the threshold either). *)
Theorem zero_contracts_advisory :
  (forall (i : Inputs Q) rpc,
     (0 < account_balance i)%Q ->
     calculate_position_size (risk_dollars i) (stop_loss_points i) (point_value i)
     = Ok (0, rpc) ->
     exists d,
       app i = Ok d /\ contracts d = 0 /\
       (shown_actual_risk d == 0)%Q /\ (shown_risk_pct d == 0)%Q /\
       advisory d = ZeroContracts /\ scenarios d = None) /\
  (forall (i : Inputs float) rpc,
     ltb (of_Z 0) (account_balance i) = true ->
     calculate_position_size (risk_dollars i) (stop_loss_points i) (point_value i)
     = Ok (0, rpc) ->
     exists d,
       app i = Ok d /\ contracts d = 0 /\
       advisory d = ZeroContracts /\ scenarios d = None /\
       ((rpc <> S754_infinity false /\
         shown_actual_risk d = S754_zero false /\
         shown_risk_pct d = S754_zero false) \/
        (rpc = S754_infinity false /\
         shown_actual_risk d = S754_nan /\
         shown_risk_pct d = S754_nan))).
Proof.
  split.
  - intros [b pv t s] rpc. cbn [account_balance risk_dollars stop_loss_points
                                point_value].
    intros Hb H.
    assert (Hz : Qeq_bool b 0 = false).
    { destruct (Qeq_bool b 0) eqn:E; [|reflexivity].
      apply Qeq_bool_iff in E. rewrite E in Hb. now apply Qlt_irrefl in Hb. }
    assert (Hb' : ~ (b == 0)%Q) by (intros E; apply Qeq_bool_iff in E; congruence).
    assert (Hpct : (inject_Z 0 * rpc / b * inject_Z 100 == 0)%Q) by now field.
    unfold app. cbn [risk_dollars stop_loss_points point_value account_balance].
    rewrite H. unfold actual_risk, risk_pct, truediv, of_int, classify.
    cbn [bind fits is_zero Q_Number]. rewrite Hz.
    cbn [bind Z.ltb Z.eqb Z.compare ltb of_Z mul div Q_Number].
    assert (Hle : Qle_bool (inject_Z 0 * rpc / b * inject_Z 100)
                    (RISK_WARNING_THRESHOLD (F:=Q)) = true).
    { apply Qle_bool_iff. rewrite Hpct. discriminate. }
    rewrite Hle. cbn [negb].
    eexists. split; [reflexivity|].
    cbn [contracts shown_actual_risk shown_risk_pct advisory scenarios].
    split; [reflexivity|]. split; [ring|]. split; [exact Hpct|].
    split; reflexivity.
  - intros [b pv t s] rpc. cbn [account_balance risk_dollars stop_loss_points
                                point_value].
    intros Hb H.
    unfold app. cbn [risk_dollars stop_loss_points point_value account_balance].
    rewrite H.
    apply sizer_risk_per_contract in H.
    apply gt0_inv in Hb.
    destruct Hb as [->|(mb & eb & ->)];
      destruct H as [->|[->|(mr & er & ->)]];
      (eexists; split; [reflexivity|]);
      cbn [contracts advisory scenarios shown_actual_risk shown_risk_pct];
      (repeat split; try reflexivity);
      solve [ left; repeat split; (discriminate || reflexivity)
            | right; repeat split; reflexivity ].
Qed.

End ZeroContractsAdvisory.

(** ** Concrete runs *)

Section ConcreteRuns.

Import Float64 Exact.

(** The literals used below, as binary64 values. *)
Example literal_1_1 : decimal 11 10 = S754_finite false 4953959590107546 (-52).
Proof. reflexivity. Qed.

Example literal_0_49 : decimal 49 100 = S754_finite false 8827055269646172 (-54).
Proof. reflexivity. Qed.

Example literal_0_4 : decimal 4 10 = S754_finite false 7205759403792794 (-54).
Proof. reflexivity. Qed.

(** Every input used in the runs and counterexamples of this file is a
    binary64 value in canonical form. *)
Example inputs_are_binary64 :
  forallb (valid_binary prec emax)
    [ float_of_Z 187; decimal 11 10; MES; MNQ; MGC; float_of_Z (-100);
      float_of_Z 12; float_of_Z 147; decimal 49 100; float_of_Z (2 ^ 1023);
      float_of_Z (2 ^ 1022); decimal 4 10; float_of_Z 25000; float_of_Z 300;
      float_of_Z 50; float_of_Z 1000 ] = true.
Proof. vm_compute. reflexivity. Qed.

(** [float(n)] raises from 2^1024 - 2^970 on, as in CPython. *)
Example int_too_large :
  of_int (F:=float) (2 ^ 1024 - 2 ^ 970) = Raise OverflowError /\
  of_int (F:=float) (2 ^ 1024 - 2 ^ 970 - 1)
  = Ok (S754_finite false 9007199254740991 971).
Proof. vm_compute. split; reflexivity. Qed.

(** The default widget values on MES: 5 contracts, $300.00 at risk, 1.20% of
    the account, and the table 1:1 12.00 $300.00, 1:2 24.00 $600.00,
    1:3 36.00 $900.00. *)
Example run_MES :
  app {| account_balance := float_of_Z 25000; point_value := MES;
         risk_dollars := float_of_Z 300; stop_loss_points := float_of_Z 12 |}
  = Ok {| contracts := 5;
          risk_per_contract := float_of_Z 60;
          shown_actual_risk := float_of_Z 300;
          shown_risk_pct := decimal 12 10;
          advisory := Acceptable;
          scenarios :=
            Some [ {| r_multiple := 1; target_points := float_of_Z 12;
                      potential_profit := float_of_Z 300 |};
                   {| r_multiple := 2; target_points := float_of_Z 24;
                      potential_profit := float_of_Z 600 |};
                   {| r_multiple := 3; target_points := float_of_Z 36;
                      potential_profit := float_of_Z 900 |} ] |}.
Proof. vm_compute. reflexivity. Qed.

Example run_MNQ :
  calculate_position_size (float_of_Z 300) (float_of_Z 12) MNQ
  = Ok (12, float_of_Z 24) /\
  actual_risk 12 (float_of_Z 24) = Ok (float_of_Z 288).
Proof. vm_compute. split; reflexivity. Qed.

Example run_MGC :
  calculate_position_size (float_of_Z 300) (float_of_Z 12) MGC
  = Ok (2, float_of_Z 120) /\
  actual_risk 2 (float_of_Z 120) = Ok (float_of_Z 240).
Proof. vm_compute. split; reflexivity. Qed.

(** A budget below the risk of one contract: the warning. *)
Example run_too_tight :
  app {| account_balance := float_of_Z 25000; point_value := MES;
         risk_dollars := float_of_Z 50; stop_loss_points := float_of_Z 12 |}
  = Ok {| contracts := 0;
          risk_per_contract := float_of_Z 60;
          shown_actual_risk := float_of_Z 0;
          shown_risk_pct := float_of_Z 0;
          advisory := ZeroContracts;
          scenarios := None |}.
Proof. vm_compute. reflexivity. Qed.

(** A small account: 24% at risk, the safety warning. *)
Example run_over_threshold :
  exists d,
    app {| account_balance := float_of_Z 1000; point_value := MGC;
           risk_dollars := float_of_Z 300; stop_loss_points := float_of_Z 12 |}
    = Ok d /\
    shown_actual_risk d = float_of_Z 240 /\
    shown_risk_pct d = float_of_Z 24 /\
    advisory d = OverThreshold.
Proof.
  eexists. split; [vm_compute; reflexivity|].
  split; [reflexivity|]. split; reflexivity.
Qed.

(** The exceptions the sizer can leave through. *)
Example run_underflow :
  calculate_position_size (float_of_Z 300)
    (S754_finite false 4503599627370496 (-1022))
    (S754_finite false 4503599627370496 (-1022))
  = Raise ZeroDivisionError.
Proof. vm_compute. reflexivity. Qed.

Example run_nan :
  calculate_position_size (float_of_Z 300) S754_nan MES = Raise ValueError.
Proof. vm_compute. reflexivity. Qed.

Example run_overflow :
  calculate_position_size (float_of_Z (2 ^ 1023))
    (S754_finite false 4503599627370496 (-1074)) MES
  = Raise OverflowError.
Proof. vm_compute. reflexivity. Qed.

End ConcreteRuns.

(** ** The theorems at concrete inputs

    Each theorem above that has hypotheses is applied once to inputs at which
    the hypotheses hold by computation. *)

Section Instances.

Import Float64 Exact Widgets.

Lemma unclamped_floor_witness :
  ((0 < 12)%Q /\ (0 < 5)%Q /\ (-100 < 0)%Q /\
   exists n,
     calculate_position_size (-100)%Q 12%Q 5%Q = Ok (n, (12 * 5)%Q) /\ n < 0) /\
  (ltb (of_Z 0) (float_of_Z 12) = true /\ ltb (of_Z 0) MES = true /\
   leb (of_Z 0) (float_of_Z 300) = true /\
   calculate_position_size (float_of_Z 300) (float_of_Z 12) MES
   = Ok (5, float_of_Z 60) /\
   5 = Z.max 0 5).
Proof.
  split.
  - split; [reflexivity|]. split; [reflexivity|]. split; [reflexivity|].
    destruct (proj1 unclamped_floor (-100)%Q 12%Q 5%Q eq_refl eq_refl)
      as (n & H1 & _ & _ & H2).
    exists n. split; [exact H1 | apply H2; reflexivity].
  - split; [reflexivity|]. split; [reflexivity|]. split; [reflexivity|].
    split; [reflexivity|].
    apply (proj2 unclamped_floor (float_of_Z 300) (float_of_Z 12) MES 5
             (float_of_Z 60)); reflexivity.
Defined.

Lemma degenerate_fallback_witness :
  leb (float_of_Z (-3)) (of_Z 0) = true /\
  calculate_position_size (float_of_Z 300) (float_of_Z (-3)) MES
  = Ok (0, S754_zero false) /\
  leb (S754_zero false) (of_Z 0) = true /\
  calculate_position_size (float_of_Z 300) (float_of_Z 12) (S754_zero false)
  = Ok (0, S754_zero false).
Proof.
  split; [reflexivity|]. split.
  - exact (degenerate_fallback (float_of_Z 300) (float_of_Z (-3)) MES
             (or_introl eq_refl)).
  - split; [reflexivity|].
    exact (degenerate_fallback (float_of_Z 300) (float_of_Z 12) (S754_zero false)
             (or_intror eq_refl)).
Defined.

Lemma classification_precedence_witness :
  (ltb RISK_WARNING_THRESHOLD (float_of_Z 24) = true /\
   classify 0 (float_of_Z 24) = OverThreshold) /\
  (ltb RISK_WARNING_THRESHOLD (float_of_Z 0) = false /\
   classify 0 (float_of_Z 0) = ZeroContracts) /\
  (ltb RISK_WARNING_THRESHOLD (decimal 12 10) = false /\
   classify 5 (decimal 12 10) = Acceptable).
Proof.
  split; [|split]; (split; [reflexivity|]).
  - apply (proj1 (classification_precedence 0 (float_of_Z 24))). reflexivity.
  - apply (proj1 (proj2 (classification_precedence 0 (float_of_Z 0))));
      reflexivity.
  - apply (proj2 (proj2 (classification_precedence 5 (decimal 12 10))));
      [reflexivity | lia].
Defined.

Lemma profit_strictly_increasing_witness :
  valid_binary prec emax (float_of_Z 12) = true /\
  valid_binary prec emax MES = true /\
  leb (float_of_Z 12) (of_Z 0) = false /\ leb MES (of_Z 0) = false /\
  0 < 5 /\ fits (F:=float) 5 = true /\ 1 <= 1 < 2 /\ 2 <= 2 ^ 49 /\
  (min_normal
   <= SF2Q (potential_profit (scenario_row 5 (float_of_Z 12) MES 1)))%Q /\
  is_finite (potential_profit (scenario_row 5 (float_of_Z 12) MES 2)) = true /\
  scenario 5 (float_of_Z 12) MES 1
  = Ok (scenario_row 5 (float_of_Z 12) MES 1) /\
  ltb (potential_profit (scenario_row 5 (float_of_Z 12) MES 1))
      (potential_profit (scenario_row 5 (float_of_Z 12) MES 2)) = true.
Proof.
  assert (Hlow : (min_normal
                  <= SF2Q (potential_profit
                             (scenario_row 5 (float_of_Z 12) MES 1)))%Q)
    by (apply Qle_bool_imp_le; vm_compute; reflexivity).
  assert (Hfin : is_finite (potential_profit
                              (scenario_row 5 (float_of_Z 12) MES 2)) = true)
    by (vm_compute; reflexivity).
  assert (Hr : 1 <= 1 < 2) by lia.
  assert (Hr2 : 2 <= 2 ^ 49) by lia.
  assert (Hc : 0 < 5) by lia.
  destruct (profit_strictly_increasing 5 (float_of_Z 12) MES 1 2
              eq_refl eq_refl eq_refl eq_refl Hc eq_refl Hr Hr2 Hlow Hfin)
    as (H1 & _ & H2 & _).
  repeat (split; [first [assumption | reflexivity]|]).
  exact H2.
Defined.

Lemma scenario_order_witness :
  fits (F:=float) 5 = true /\ forallb (fits (F:=float)) [1; 2; 3] = true /\
  project 5 (float_of_Z 12) MES [1; 2; 3]
  = Ok (map (scenario_row 5 (float_of_Z 12) MES) [1; 2; 3]).
Proof.
  split; [reflexivity|]. split; [reflexivity|].
  apply (proj1 (proj2 (scenario_order 5 (float_of_Z 12) MES [1; 2; 3])));
    reflexivity.
Defined.

Lemma balance_noninterference_witness :
  let i1 := {| account_balance := float_of_Z 25000; point_value := MES;
               risk_dollars := float_of_Z 300;
               stop_loss_points := float_of_Z 12 |} in
  let i2 := with_balance i1 (float_of_Z 1000) in
  is_zero (account_balance i2) = false /\
  exists d1 d2,
    app i1 = Ok d1 /\ app i2 = Ok d2 /\
    contracts d1 = 5 /\ contracts d2 = contracts d1.
Proof.
  intros i1 i2.
  assert (Hz : is_zero (account_balance i2) = false) by reflexivity.
  split; [exact Hz|].
  assert (H1 : exists d1, app i1 = Ok d1 /\ contracts d1 = 5).
  { eexists. split; [vm_compute; reflexivity | reflexivity]. }
  destruct H1 as (d1 & H1 & Hc).
  destruct (balance_noninterference i1 i2 d1 eq_refl eq_refl eq_refl Hz H1)
    as (d2 & H2 & Hc2 & _).
  exists d1, d2. repeat split; assumption.
Defined.

Lemma one_to_one_is_actual_risk_witness :
  let i := {| account_balance := float_of_Z 25000; point_value := MES;
              risk_dollars := float_of_Z 300;
              stop_loss_points := float_of_Z 12 |} in
  valid_binary prec emax (stop_loss_points i) = true /\
  valid_binary prec emax (point_value i) = true /\
  exists d row rest,
    app i = Ok d /\ 0 < contracts d /\
    (min_normal <= SF2Q (risk_per_contract d))%Q /\
    scenarios d = Some (row :: rest) /\
    r_multiple row = 1 /\
    (shown_actual_risk d = S754_infinity false \/
     potential_profit row = S754_infinity false \/
     (Qabs (SF2Q (potential_profit row) - SF2Q (shown_actual_risk d))
      <= (1 # 562949953421312) * SF2Q (shown_actual_risk d))%Q).
Proof.
  intros i. split; [reflexivity|]. split; [reflexivity|].
  assert (H : exists d, app i = Ok d /\ contracts d = 5 /\
                        risk_per_contract d = float_of_Z 60).
  { eexists. split; [vm_compute; reflexivity|]. split; reflexivity. }
  destruct H as (d & H & Hn & Hr).
  assert (Hpos : 0 < contracts d) by (rewrite Hn; lia).
  assert (Hnorm : (min_normal <= SF2Q (risk_per_contract d))%Q)
    by (rewrite Hr; apply Qle_bool_imp_le; vm_compute; reflexivity).
  destruct (one_to_one_is_actual_risk i d eq_refl eq_refl H Hpos Hnorm)
    as (row & rest & Hs & Hm & Hclose).
  exists d, row, rest. repeat split; assumption.
Defined.

Lemma zero_contracts_advisory_witness :
  (let i := {| account_balance := 25000%Q; point_value := 5%Q;
               risk_dollars := 50%Q; stop_loss_points := 12%Q |} in
   (0 < account_balance i)%Q /\
   exists d, app i = Ok d /\ advisory d = ZeroContracts) /\
  (let i := {| account_balance := float_of_Z 25000; point_value := MES;
               risk_dollars := float_of_Z 50;
               stop_loss_points := float_of_Z 12 |} in
   ltb (of_Z 0) (account_balance i) = true /\
   exists d, app i = Ok d /\ advisory d = ZeroContracts).
Proof.
  split; intros i; (split; [reflexivity|]).
  - destruct (proj1 zero_contracts_advisory i (12 * 5)%Q eq_refl eq_refl)
      as (d & H & _ & _ & _ & Ha & _).
    exists d. split; assumption.
  - destruct (proj2 zero_contracts_advisory i (float_of_Z 60) eq_refl eq_refl)
      as (d & H & _ & Ha & _).
    exists d. split; assumption.
Defined.

End Instances.

(** * Further properties of the script *)

(** ** Where the exceptions come from *)

Section Exceptions.

Context {F : Type} {num : Number F}.

(** An exception leaves the sizer either at the division or at the floor. *)
Lemma sizer_Raise t s p e :
  calculate_position_size t s p = Raise e ->
  leb s (of_Z 0) = false /\ leb p (of_Z 0) = false /\
  ((e = ZeroDivisionError /\ is_zero (mul s p) = true) \/
   (is_zero (mul s p) = false /\ floor (div t (mul s p)) = Raise e)).
Proof.
  unfold calculate_position_size.
  destruct (leb s (of_Z 0)); simpl; [discriminate|].
  destruct (leb p (of_Z 0)); simpl; [discriminate|].
  unfold truediv. destruct (is_zero (mul s p)); simpl.
  - intros [= <-]. auto.
  - destruct (floor (div t (mul s p))); simpl; [discriminate|].
    intros [= <-]. auto.
Qed.

Lemma mapM_scenario_Raise c s p ms e :
  mapM (scenario c s p) ms = Raise e -> e = OverflowError.
Proof.
  induction ms as [|r ms IH]; simpl; [discriminate|].
  unfold scenario at 1, of_int.
  destruct (fits r); simpl; [|now intros [= <-]].
  destruct (fits c); simpl; [|now intros [= <-]].
  destruct (mapM (scenario c s p) ms); simpl; [discriminate|].
  intros [= <-]. now apply IH.
Qed.

(** An exception leaves the script from the sizer, from the conversion of an
    [int] operand, or from the division by the balance. *)
Lemma app_Raise i e :
  app i = Raise e ->
  calculate_position_size (risk_dollars i) (stop_loss_points i) (point_value i)
  = Raise e \/
  e = OverflowError \/
  (e = ZeroDivisionError /\ is_zero (account_balance i) = true).
Proof.
  unfold app.
  destruct (calculate_position_size _ _ _) as [[n rpc]|e0]; simpl;
    [|intros [= <-]; auto].
  unfold actual_risk, of_int.
  destruct (fits n); simpl; [|intros [= <-]; auto].
  unfold risk_pct, truediv.
  destruct (is_zero (account_balance i)); simpl; [intros [= <-]; auto|].
  destruct (0 <? n); simpl; [|discriminate].
  rewrite project_mapM.
  destruct (mapM _ _) as [rows|e0] eqn:Hrows; simpl; [discriminate|].
  intros [= <-]. apply mapM_scenario_Raise in Hrows. auto.
Qed.

End Exceptions.

(** ** The sizer on binary64: non-finite inputs and the risk per contract *)

Section SizerOnFloats.

Import Float64 Widgets.

Lemma float_floor_Raise (q : float) e :
  floor q = Raise e ->
  (e = ValueError /\ q = S754_nan) \/
  (e = OverflowError /\ exists b, q = S754_infinity b).
Proof.
  destruct q as [b|b| |b m x]; simpl; try discriminate; intros [= <-]; eauto.
Qed.

Lemma SFmul_nan_l (x : float) : SFmul prec emax S754_nan x = S754_nan.
Proof. reflexivity. Qed.

Lemma SFmul_nan_r (x : float) : SFmul prec emax x S754_nan = S754_nan.
Proof. destruct x; reflexivity. Qed.

(** X1.  NaN is not caught by the guard [<= 0]: a NaN stop or point value,
    with the other one not [<= 0], makes the sizer raise [ValueError] (from
    [math.floor]) whatever the dollar risk. *)
Theorem nan_passes_the_guard (total stop pv : float) :
  leb stop (of_Z 0) = false -> leb pv (of_Z 0) = false ->
  stop = S754_nan \/ pv = S754_nan ->
  calculate_position_size total stop pv = Raise ValueError.
Proof.
  intros Hs Hp Hnan. rewrite (sizer_normal _ _ _ Hs Hp).
  assert (Hr : mul stop pv = S754_nan).
  { destruct Hnan as [-> | ->]; [apply SFmul_nan_l | apply SFmul_nan_r]. }
  rewrite Hr. unfold truediv. cbn [is_zero float_Number float_is_zero bind div].
  now rewrite SFdiv_nan.
Qed.

(** X2.  A dollar risk that is an infinity or NaN never yields a contract
    count: once the guard is passed the sizer raises, [ZeroDivisionError]
    exactly when [stop * point_value] is zero. *)
Theorem non_finite_risk_raises (total stop pv : float) :
  is_finite total = false ->
  leb stop (of_Z 0) = false -> leb pv (of_Z 0) = false ->
  exists e,
    calculate_position_size total stop pv = Raise e /\
    (e = ZeroDivisionError <-> is_zero (mul stop pv) = true).
Proof.
  intros Ht Hs Hp. rewrite (sizer_normal _ _ _ Hs Hp).
  unfold truediv. generalize (mul stop pv). intros r.
  destruct (is_zero r) eqn:Hz; cbn [bind].
  { exists ZeroDivisionError. split; [reflexivity|]. tauto. }
  destruct total as [b|b| |b m x]; try discriminate;
    destruct r as [br|br| |br mr xr]; try discriminate;
    cbn [div SFdiv floor float_Number float_floor bind];
    eexists; (split; [reflexivity|]); split; discriminate.
Qed.

(** X3.  The risk per contract of a completed sizing is [+0.0] exactly on the
    guard (and then the count is 0); otherwise it is the product
    [stop * point_value], a positive finite float or [+inf], never negative,
    never zero and never NaN. *)
Theorem risk_per_contract_of_a_sizing (total stop pv : float) n rpc :
  calculate_position_size total stop pv = Ok (n, rpc) ->
  (rpc = S754_zero false /\ n = 0 /\
   (leb stop (of_Z 0) = true \/ leb pv (of_Z 0) = true)) \/
  (leb stop (of_Z 0) = false /\ leb pv (of_Z 0) = false /\
   rpc = mul stop pv /\
   (rpc = S754_infinity false \/ exists m e, rpc = S754_finite false m e)).
Proof.
  intros H. pose proof (sizer_risk_per_contract _ _ _ _ _ H) as Hc.
  apply sizer_Ok in H as [(-> & -> & Hg) | (Hs & Hp & Hr & Hz & _)].
  - left. auto.
  - right. repeat split; try assumption.
    destruct Hc as [->|[->|(m & e & ->)]]; [discriminate| |]; eauto.
Qed.

(** The product of two positive floats: zero (underflow), positive finite,
    or [+inf]. *)
Lemma mul_positive (s p : float) :
  ltb (of_Z 0) s = true -> ltb (of_Z 0) p = true ->
  mul s p <> S754_nan /\ signed false (mul s p).
Proof.
  intros Hs Hp. split.
  - apply gt0_inv in Hs as [->|(ms & es & ->)];
      apply gt0_inv in Hp as [->|(mp & ep & ->)]; try discriminate.
    apply SFmul_finite_not_nan.
  - apply (SFmul_signed false false); apply not_le0_signed; now apply gt0_not_le0.
Qed.

(** X4.  With a finite dollar risk and a positive stop and point value the
    sizer never raises [ValueError]: it returns a count, or raises
    [ZeroDivisionError] (exactly when [stop * point_value] underflows to
    zero) or [OverflowError] (exactly when the quotient overflows). *)
Theorem finite_sizing_outcomes (total stop pv : float) :
  is_finite total = true ->
  ltb (of_Z 0) stop = true -> ltb (of_Z 0) pv = true ->
  (is_zero (mul stop pv) = true /\
   calculate_position_size total stop pv = Raise ZeroDivisionError) \/
  (is_zero (mul stop pv) = false /\
   (exists b, div total (mul stop pv) = S754_infinity b) /\
   calculate_position_size total stop pv = Raise OverflowError) \/
  (is_zero (mul stop pv) = false /\
   is_finite (div total (mul stop pv)) = true /\
   exists n, calculate_position_size total stop pv = Ok (n, mul stop pv)).
Proof.
  intros Ht Hs Hp.
  rewrite (sizer_normal _ _ _ (gt0_not_le0 _ Hs) (gt0_not_le0 _ Hp)).
  destruct (mul_positive _ _ Hs Hp) as [Hnan Hsg]. revert Hnan Hsg.
  unfold truediv. generalize (mul stop pv). intros r Hnan Hsg.
  destruct (is_zero r) eqn:Hz; cbn [bind]; [left; auto|right].
  assert (Hq : div total r <> S754_nan).
  { destruct total as [b|b| |b m x]; try discriminate;
      destruct r as [br|br| |br mr xr]; try discriminate; try contradiction.
    apply SFdiv_finite_not_nan. }
  destruct (div total r) as [b|b| |b m x] eqn:Eq; try contradiction;
    cbn [floor float_Number float_floor bind is_finite].
  - right. eauto.
  - left. eauto.
  - right. eauto.
Qed.

End SizerOnFloats.

(** ** The advisory and the table, on binary64 *)

Section AdvisoryOnFloats.

Import Float64 Widgets.

Lemma binary_round_signed (b : bool) (m : positive) (e : Z) :
  signed b (binary_round prec emax b m e).
Proof.
  unfold binary_round. destruct (shl_align _ _ _) as [mz ez].
  apply binary_round_aux_signed.
Qed.

Lemma float_of_Z_signed (n : Z) :
  (n <= 0 -> signed true (float_of_Z n)) /\
  (0 <= n -> signed false (float_of_Z n)).
Proof.
  unfold float_of_Z, binary_normalize.
  destruct n as [|m|m]; split; intros H; try lia; try exact I;
    apply binary_round_signed.
Qed.

Lemma signed_true_not_over (x : float) :
  signed true x -> ltb RISK_WARNING_THRESHOLD x = false.
Proof.
  unfold RISK_WARNING_THRESHOLD. cbn [of_Z ltb float_Number]. rewrite two_lit.
  destruct x as [b|b| |b m e]; simpl; intros H; subst; reflexivity.
Qed.

(** The sign of the actual risk carries over to the percentage. *)
Lemma pct_signed (b : bool) (actual balance : float) :
  ltb (of_Z 0) balance = true -> signed b actual ->
  signed b (mul (div actual balance) (of_Z 100)).
Proof.
  intros Hb Ha.
  assert (Hz : float_is_zero balance = false).
  { apply gt0_inv in Hb as [->|(m & e & ->)]; reflexivity. }
  assert (Hsb : signed false balance).
  { apply not_le0_signed. now apply gt0_not_le0. }
  pose proof (SFdiv_signed b false _ _ Hz Ha Hsb) as Hq.
  pose proof (SFmul_signed _ false _ (float_of_Z 100) Hq
                (proj2 (float_of_Z_signed 100) ltac:(lia))) as Hm.
  destruct b; exact Hm.
Qed.

(** Without a positive contract count the percentage is never above the
    threshold. *)
Lemma not_over_without_contracts (i : Inputs float) (d : Display float) :
  app i = Ok d -> ltb (of_Z 0) (account_balance i) = true ->
  contracts d <= 0 ->
  ltb RISK_WARNING_THRESHOLD (shown_risk_pct d) = false.
Proof.
  intros H Hb Hn. apply app_Ok in H as (Hs & _ & Ha & _ & Hp & _).
  apply signed_true_not_over. rewrite Hp. apply pct_signed; [exact Hb|].
  rewrite Ha.
  assert (Hr : signed false (risk_per_contract d)).
  { apply sizer_risk_per_contract in Hs as [->|[->|(m & e & ->)]]; simpl; auto. }
  exact (SFmul_signed true false _ _ (proj1 (float_of_Z_signed _) Hn) Hr).
Qed.

(** X5.  A negative contract count (which a negative dollar risk gives) is
    reported as acceptable: with a positive balance the run shows
    [Acceptable], and no profit table. *)
Theorem negative_count_is_acceptable (i : Inputs float) (d : Display float) :
  app i = Ok d -> ltb (of_Z 0) (account_balance i) = true ->
  contracts d < 0 ->
  advisory d = Acceptable /\ scenarios d = None.
Proof.
  intros H Hb Hn.
  pose proof (not_over_without_contracts i d H Hb ltac:(lia)) as Hover.
  pose proof (app_advisory i d H) as Ha.
  apply app_Ok in H as (_ & _ & _ & _ & _ & Ht).
  split.
  - rewrite Ha. unfold classify. rewrite Hover.
    destruct (contracts d =? 0) eqn:E; [apply Z.eqb_eq in E; lia | reflexivity].
  - rewrite Ht. destruct (0 <? contracts d) eqn:E; [apply Z.ltb_lt in E; lia|].
    reflexivity.
Qed.

Lemma zero_contracts_iff (i : Inputs float) (d : Display float) :
  app i = Ok d -> ltb (of_Z 0) (account_balance i) = true ->
  (advisory d = ZeroContracts <-> contracts d = 0).
Proof.
  intros H Hb.
  pose proof (app_advisory i d H) as Ha.
  pose proof (not_over_without_contracts i d H Hb) as Hover.
  unfold classify in Ha. split.
  - rewrite Ha.
    destruct (ltb RISK_WARNING_THRESHOLD (shown_risk_pct d)); [discriminate|].
    destruct (contracts d =? 0) eqn:E; [now apply Z.eqb_eq in E | discriminate].
  - intros E. rewrite Ha, Hover by lia. now rewrite E.
Qed.

(** X6.  With a positive balance the messages say what the count is: the
    warning [ZeroContracts] is shown exactly when the count is 0, and the
    safety warning [OverThreshold] only with a positive count, next to a
    table of three rows for the multiples 1, 2, 3. *)
Theorem advisory_tells_the_count (i : Inputs float) (d : Display float) :
  app i = Ok d -> ltb (of_Z 0) (account_balance i) = true ->
  (advisory d = ZeroContracts <-> contracts d = 0) /\
  (advisory d = OverThreshold ->
   0 < contracts d /\
   exists rows, scenarios d = Some rows /\ map r_multiple rows = [1; 2; 3]).
Proof.
  intros H Hb. split; [now apply (zero_contracts_iff i)|].
  pose proof (app_advisory i d H) as Ha.
  pose proof (not_over_without_contracts i d H Hb) as Hover.
  apply app_Ok in H as (_ & _ & _ & _ & _ & Ht).
  unfold classify in Ha. rewrite Ha.
  destruct (ltb RISK_WARNING_THRESHOLD (shown_risk_pct d)) eqn:E.
  - intros _.
    assert (Hn : 0 < contracts d).
    { destruct (Z_lt_le_dec 0 (contracts d)) as [Hn|Hn]; [exact Hn|].
      specialize (Hover Hn). congruence. }
    split; [exact Hn|]. apply Z.ltb_lt in Hn. rewrite Hn in Ht.
    eexists. split; [exact Ht|]. reflexivity.
  - destruct (contracts d =? 0); discriminate.
Qed.

End AdvisoryOnFloats.

(** ** The script behind its widgets *)

Section BehindTheWidgets.

Import Float64 Widgets.

Lemma MES_lit : MES = S754_finite false 5629499534213120 (-50).
Proof. reflexivity. Qed.

Lemma MNQ_lit : MNQ = S754_finite false 4503599627370496 (-51).
Proof. reflexivity. Qed.

Lemma MGC_lit : MGC = S754_finite false 5629499534213120 (-49).
Proof. reflexivity. Qed.

Lemma quarter_lit : decimal 25 100 = S754_finite false 4503599627370496 (-54).
Proof. reflexivity. Qed.

Lemma ten_lit : float_of_Z 10 = S754_finite false 5629499534213120 (-49).
Proof. reflexivity. Qed.

Lemma thousand_lit : float_of_Z 1000 = S754_finite false 8796093022208000 (-43).
Proof. reflexivity. Qed.

Lemma catalog_values key pv :
  getitem ASSETS key = Some pv -> pv = MES \/ pv = MNQ \/ pv = MGC.
Proof.
  unfold ASSETS. cbn [getitem].
  repeat (destruct (String.eqb _ key); [intros [= <-]; auto|]).
  discriminate.
Qed.

(** Above a positive finite float there are only positive finite floats and
    [+inf]. *)
Lemma above_positive (m0 : positive) (e0 : Z) (x : float) :
  leb (S754_finite false m0 e0) x = true ->
  x = S754_infinity false \/
  exists m e, x = S754_finite false m e /\ e0 <= e.
Proof.
  destruct x as [b|[]| |[] m e]; cbn [leb float_Number SFleb SFcompare];
    try discriminate; auto.
  intros H. right. exists m, e. split; [reflexivity|].
  destruct (Z.compare_spec e0 e); try lia; discriminate.
Qed.

Lemma widget_stop (i : Inputs float) :
  from_widgets i ->
  stop_loss_points i = S754_infinity false \/
  exists m e, stop_loss_points i = S754_finite false m e /\ -54 <= e.
Proof.
  intros (_ & _ & _ & H). rewrite quarter_lit in H.
  exact (above_positive _ _ _ H).
Qed.

Lemma widget_risk (i : Inputs float) :
  from_widgets i ->
  risk_dollars i = S754_infinity false \/
  exists m e, risk_dollars i = S754_finite false m e.
Proof.
  intros (_ & _ & H & _). rewrite ten_lit in H.
  apply above_positive in H as [H|(m & e & H & _)]; eauto.
Qed.

Lemma widget_balance (i : Inputs float) :
  from_widgets i ->
  ltb (of_Z 0) (account_balance i) = true /\
  is_zero (account_balance i) = false.
Proof.
  intros (H & _). rewrite thousand_lit in H.
  apply above_positive in H as [->|(m & e & -> & _)]; split; reflexivity.
Qed.

(** Behind the widgets the divisor of the sizer is never zero and never NaN:
    a stop of at least 0.25 times a point value of the table cannot
    underflow. *)
Lemma widget_divisor (i : Inputs float) :
  from_widgets i ->
  leb (stop_loss_points i) (of_Z 0) = false /\
  leb (point_value i) (of_Z 0) = false /\
  is_zero (mul (stop_loss_points i) (point_value i)) = false /\
  mul (stop_loss_points i) (point_value i) <> S754_nan /\
  signed false (mul (stop_loss_points i) (point_value i)).
Proof.
  intros Hw. pose proof (widget_stop i Hw) as Hs.
  destruct Hw as (_ & (key & _ & Hpv) & _ & _).
  apply catalog_values in Hpv.
  assert (Hpv' : exists mp ep, point_value i = S754_finite false mp ep /\
                               2 ^ 52 <= Z.pos mp /\ -51 <= ep).
  { destruct Hpv as [->|[->| ->]]; do 2 eexists;
      (split; [reflexivity|]); split; (reflexivity || discriminate || lia). }
  destruct Hpv' as (mp & ep & -> & Hmp & Hep).
  destruct Hs as [->|(ms & es & -> & Hes)].
  - repeat split; try reflexivity; discriminate.
  - split; [reflexivity|]. split; [reflexivity|]. split; [|split].
    + apply SFmul_finite_nonzero.
      assert (52 < Zdigits2 (Z.pos (ms * mp))).
      { apply Zdigits2_lower; [lia|]. rewrite Pos2Z.inj_mul. nia. }
      cbn [Zdigits2] in H. unfold emin, prec, emax. lia.
    + apply SFmul_finite_not_nan.
    + apply (SFmul_signed false false); exact eq_refl.
Qed.

(** X7.  Behind the widgets the script never divides by zero, and with a
    finite dollar risk the only exception it can raise is [OverflowError]. *)
Theorem no_division_by_zero_behind_widgets (i : Inputs float) :
  from_widgets i ->
  app i <> Raise ZeroDivisionError /\
  (is_finite (risk_dollars i) = true ->
   forall e, app i = Raise e -> e = OverflowError).
Proof.
  intros Hw.
  destruct (widget_divisor i Hw) as (Hs & Hp & Hz & Hnan & _).
  destruct (widget_balance i Hw) as (_ & Hb).
  destruct (widget_risk i Hw) as [Ht|(mt & et & Ht)].
  - split.
    + intros H. apply app_Raise in H as [H|[H|[_ H]]]; try congruence.
      apply sizer_Raise in H as (_ & _ & [[_ H]|[_ H]]); [congruence|].
      apply float_floor_Raise in H as [[H _]|[H _]]; discriminate.
    + rewrite Ht. discriminate.
  - assert (Hfloor : forall e,
              floor (div (risk_dollars i)
                       (mul (stop_loss_points i) (point_value i))) = Raise e ->
              e = OverflowError).
    { intros e H. apply float_floor_Raise in H as [[_ H]|[H _]]; [|exact H].
      exfalso. revert H Hz Hnan. rewrite Ht.
      destruct (mul (stop_loss_points i) (point_value i)) as [b|b| |b m x];
        try discriminate; try contradiction.
      intros H _ _. revert H. apply SFdiv_finite_not_nan. }
    assert (Hraise : forall e, app i = Raise e -> e = OverflowError).
    { intros e H. apply app_Raise in H as [H|[H|[_ H]]]; try congruence.
      apply sizer_Raise in H as (_ & _ & [[_ H]|[_ H]]); [congruence|].
      now apply Hfloor. }
    split.
    + intros H. apply Hraise in H. discriminate.
    + intros _. exact Hraise.
Qed.

(** X8.  Behind the widgets a completed run never takes the fallback and
    never shows a negative count; the warning [ZeroContracts] is shown
    exactly when the profit table is not. *)
Theorem completed_run_behind_widgets (i : Inputs float) (d : Display float) :
  from_widgets i -> app i = Ok d ->
  0 <= contracts d /\
  risk_per_contract d = mul (stop_loss_points i) (point_value i) /\
  is_zero (risk_per_contract d) = false /\
  (advisory d = ZeroContracts <-> scenarios d = None).
Proof.
  intros Hw H.
  destruct (widget_divisor i Hw) as (Hs & Hp & Hz & _ & Hsg).
  destruct (widget_balance i Hw) as (Hb & _).
  pose proof (zero_contracts_iff i d H Hb) as Hzero.
  apply app_Ok in H as (Hsz & _ & _ & _ & _ & Ht).
  apply sizer_Ok in Hsz as [(_ & _ & [Hg|Hg]) | (_ & _ & Hr & _ & Hf)];
    try congruence.
  assert (Hn : 0 <= contracts d).
  { apply (floor_signed_false _ _ Hf). rewrite Hr.
    apply (SFdiv_signed false false); [exact Hz| |exact Hsg].
    destruct (widget_risk i Hw) as [->|(m & e & ->)]; reflexivity. }
  split; [exact Hn|]. split; [exact Hr|]. split; [now rewrite Hr|].
  rewrite Hzero, Ht. destruct (0 <? contracts d) eqn:E.
  - apply Z.ltb_lt in E. split; [lia | discriminate].
  - apply Z.ltb_ge in E. split; [reflexivity | lia].
Qed.

End BehindTheWidgets.

(** ** The instrument table *)

Section InstrumentTable.

Import Float64 Widgets.

Lemma getitem_None (d : list (String.string * float)) key :
  getitem d key = None <-> ~ In key (map fst d).
Proof.
  induction d as [|[k v] d IH]; cbn [getitem map fst In]; [tauto|].
  destruct (String.eqb_spec k key) as [E|E].
  - split; [discriminate | intros H; exfalso; apply H; auto].
  - rewrite IH. tauto.
Qed.

(** X9.  Line 54 never raises [KeyError] for an option of the select box: a
    key is found in [ASSETS] exactly when it is one of the options, and the
    point value found is 5.0, 2.0 or 10.0, finite and positive. *)
Theorem asset_selection (key : String.string) :
  (In key options <-> exists pv, getitem ASSETS key = Some pv) /\
  (forall pv, getitem ASSETS key = Some pv ->
     (pv = MES \/ pv = MNQ \/ pv = MGC) /\
     ltb (of_Z 0) pv = true /\ is_finite pv = true).
Proof.
  split.
  - pose proof (getitem_None ASSETS key) as H. fold options in H.
    destruct (getitem ASSETS key) as [pv|].
    + split; [eauto|]. intros _.
      destruct (in_dec String.string_dec key options) as [Hin|Hin]; [exact Hin|].
      apply H in Hin. discriminate.
    + split; [|intros [pv Hpv]; discriminate].
      intros Hin. exfalso. now apply (proj1 H).
  - intros pv Hpv. split; [now apply (catalog_values key)|].
    apply catalog_values in Hpv as [->|[->| ->]]; split; reflexivity.
Qed.

End InstrumentTable.

(** ** The further properties at concrete inputs *)

Section FurtherInstances.

Import Float64 Exact Widgets.
Import String.StringSyntax.
Local Open Scope string_scope.

Lemma nan_passes_the_guard_witness :
  leb S754_nan (of_Z 0) = false /\ leb MES (of_Z 0) = false /\
  calculate_position_size (float_of_Z 300) S754_nan MES = Raise ValueError.
Proof.
  split; [reflexivity|]. split; [reflexivity|].
  apply (nan_passes_the_guard (float_of_Z 300) S754_nan MES);
    [reflexivity | reflexivity | left; reflexivity].
Defined.

Lemma non_finite_risk_raises_witness :
  is_finite (S754_infinity false) = false /\
  exists e,
    calculate_position_size (S754_infinity false) (float_of_Z 12) MES = Raise e.
Proof.
  split; [reflexivity|].
  destruct (non_finite_risk_raises (S754_infinity false) (float_of_Z 12) MES
              eq_refl eq_refl eq_refl) as (e & H & _).
  exists e. exact H.
Defined.

Lemma risk_per_contract_of_a_sizing_witness :
  calculate_position_size (float_of_Z 300) (float_of_Z 12) MES
  = Ok (5, float_of_Z 60) /\
  (float_of_Z 60 = S754_zero false \/
   float_of_Z 60 = mul (float_of_Z 12) MES).
Proof.
  split; [reflexivity|].
  destruct (risk_per_contract_of_a_sizing (float_of_Z 300) (float_of_Z 12) MES
              5 (float_of_Z 60) eq_refl) as [(H & _)|(_ & _ & H & _)];
    [left | right]; exact H.
Defined.

Lemma finite_sizing_outcomes_witness :
  is_finite (float_of_Z 300) = true /\
  ltb (of_Z 0) (float_of_Z 12) = true /\ ltb (of_Z 0) MES = true /\
  calculate_position_size (float_of_Z 300) (float_of_Z 12) MES
  <> Raise ValueError.
Proof.
  split; [reflexivity|]. split; [reflexivity|]. split; [reflexivity|].
  destruct (finite_sizing_outcomes (float_of_Z 300) (float_of_Z 12) MES
              eq_refl eq_refl eq_refl) as [(_ & H)|[(_ & _ & H)|(_ & _ & n & H)]];
    rewrite H; discriminate.
Defined.

Lemma negative_count_is_acceptable_witness :
  let i := {| account_balance := float_of_Z 25000; point_value := MES;
              risk_dollars := float_of_Z (-100);
              stop_loss_points := float_of_Z 12 |} in
  ltb (of_Z 0) (account_balance i) = true /\
  exists d,
    app i = Ok d /\ contracts d = -2 /\
    advisory d = Acceptable /\ scenarios d = None.
Proof.
  intros i. split; [reflexivity|].
  assert (H : exists d, app i = Ok d /\ contracts d = -2).
  { eexists. split; [vm_compute; reflexivity | reflexivity]. }
  destruct H as (d & H & Hn). exists d.
  split; [exact H|]. split; [exact Hn|].
  apply (negative_count_is_acceptable i d H); [reflexivity | rewrite Hn; lia].
Defined.

Lemma advisory_tells_the_count_witness :
  let i := {| account_balance := float_of_Z 1000; point_value := MGC;
              risk_dollars := float_of_Z 300;
              stop_loss_points := float_of_Z 12 |} in
  ltb (of_Z 0) (account_balance i) = true /\
  exists d,
    app i = Ok d /\ advisory d = OverThreshold /\ 0 < contracts d.
Proof.
  intros i. split; [reflexivity|].
  assert (H : exists d, app i = Ok d /\ advisory d = OverThreshold).
  { eexists. split; [vm_compute; reflexivity | reflexivity]. }
  destruct H as (d & H & Ha). exists d.
  split; [exact H|]. split; [exact Ha|].
  exact (proj1 (proj2 (advisory_tells_the_count i d H eq_refl) Ha)).
Defined.

Lemma default_inputs_from_widgets :
  from_widgets {| account_balance := float_of_Z 25000; point_value := MES;
                  risk_dollars := float_of_Z 300;
                  stop_loss_points := float_of_Z 12 |}.
Proof.
  split; [reflexivity|]. split; [|split; reflexivity].
  exists "MES (Micro S&P 500)". split; [left|]; reflexivity.
Defined.

Lemma no_division_by_zero_behind_widgets_witness :
  app {| account_balance := float_of_Z 25000; point_value := MES;
         risk_dollars := float_of_Z 300;
         stop_loss_points := float_of_Z 12 |}
  <> Raise ZeroDivisionError.
Proof.
  exact (proj1 (no_division_by_zero_behind_widgets _ default_inputs_from_widgets)).
Defined.

Lemma completed_run_behind_widgets_witness :
  let i := {| account_balance := float_of_Z 25000; point_value := MES;
              risk_dollars := float_of_Z 300;
              stop_loss_points := float_of_Z 12 |} in
  exists d, app i = Ok d /\ 0 <= contracts d.
Proof.
  intros i.
  assert (H : exists d, app i = Ok d).
  { eexists. vm_compute. reflexivity. }
  destruct H as (d & H). exists d. split; [exact H|].
  exact (proj1 (completed_run_behind_widgets i d default_inputs_from_widgets H)).
Defined.

Lemma asset_selection_witness :
  In "MNQ (Micro Nasdaq 100)" options /\
  exists pv, getitem ASSETS "MNQ (Micro Nasdaq 100)" = Some pv.
Proof.
  assert (H : In "MNQ (Micro Nasdaq 100)" options)
    by (right; left; reflexivity).
  split; [exact H|].
  exact (proj1 (proj1 (asset_selection "MNQ (Micro Nasdaq 100)")) H).
Defined.

End FurtherInstances.
